(** * functools: channel pipelines of the Go package [functools]

    A shallow embedding of [streams.go], [bufferedStreams.go] and the slice
    helpers ([iterable]), together with a small-step semantics of the
    goroutines and channels they create.

    Every constructor of the package makes one channel and starts one
    goroutine that writes to it and reads from at most one upstream channel.
    The goroutines and channels that feed a stream therefore form a chain,
    and a chain with the state of each goroutine and each channel is the
    state of the running program. The scheduler is left free: any goroutine
    that is not blocked may take the next step. A stream handed to two
    consumers, which the package does not support, is outside the model. *)

From Stdlib Require Import List ZArith Lia Bool.
From Stdlib Require String.
Import ListNotations.
Import String.StringSyntax.
Delimit Scope string_scope with string.

Set Implicit Arguments.
Local Open Scope Z_scope.

(** ** Go values *)

(** A slice is either the nil slice or a view of an array. Both have a
    length; [var s []T] is nil and [[]T{}] is empty but not nil. Spare
    capacity is not modelled. *)
Inductive slice (T : Type) : Type :=
| nil_slice
| mk_slice (l : list T).
Arguments nil_slice {T}.

Definition elems {T} (s : slice T) : list T :=
  match s with
  | nil_slice => []
  | mk_slice l => l
  end.

Definition is_nil {T} (s : slice T) : bool :=
  match s with
  | nil_slice => true
  | mk_slice _ => false
  end.

Definition len {T} (s : slice T) : Z := Z.of_nat (length (elems s)).

(** [append(s, v)] *)
Definition append {T} (s : slice T) (v : T) : slice T :=
  mk_slice (elems s ++ [v]).

(** [s[lo:hi]]; [None] is the run-time panic for indices out of range. The
    nil slice resliced at [0:0] stays nil. *)
Definition reslice {T} (s : slice T) (lo hi : Z) : option (slice T) :=
  if (0 <=? lo) && (lo <=? hi) && (hi <=? len s) then
    match s with
    | nil_slice => Some nil_slice
    | mk_slice l =>
        Some (mk_slice (firstn (Z.to_nat (hi - lo)) (skipn (Z.to_nat lo) l)))
    end
  else None.

(** Run-time types, and the empty interface [any]: nil, or a value
    together with its dynamic type. *)
Inductive gotype : Type := TInt | TString | TBool.

Definition denote (t : gotype) : Type :=
  match t with
  | TInt => Z
  | TString => String.string
  | TBool => bool
  end.

Inductive any : Type :=
| nil_any
| dyn (t : gotype) (v : denote t).

Definition gotype_eq_dec (a b : gotype) : {a = b} + {a <> b}.
Proof. decide equality. Defined.

Definition dyn_type (v : any) : option gotype :=
  match v with
  | nil_any => None
  | dyn t _ => Some t
  end.

Definition has_type (t : gotype) (v : any) : bool :=
  match dyn_type v with
  | Some t' => if gotype_eq_dec t' t then true else false
  | None => false
  end.

(** [casted, ok := v.(T)] for a concrete type [T]: [Some casted] when [ok]. *)
Definition type_assert (t : gotype) (v : any) : option (denote t) :=
  match v with
  | nil_any => None
  | dyn t' x =>
      match gotype_eq_dec t' t with
      | left e => Some (eq_rect t' denote x t e)
      | right _ => None
      end
  end.

(** ** Channels *)

Record chan (T : Type) : Type := mk_chan {
  buf : list T;      (* elements sent and not yet received, oldest first *)
  cap : Z;           (* capacity given to make *)
  closed : bool
}.

(** [make(chan T, size)]; a negative size panics. The limits of memory are
    not modelled. *)
Definition make_chan (T : Type) (size : Z) : option (chan T) :=
  if size <? 0 then None else Some (mk_chan [] size false).

(** [make(chan T)] *)
Definition make_unbuffered (T : Type) : chan T := mk_chan [] 0 false.

Definition set_buf {T} (c : chan T) (b : list T) : chan T :=
  mk_chan b (cap c) (closed c).

Definition set_closed {T} (c : chan T) : chan T :=
  mk_chan (buf c) (cap c) true.

(** What one iteration of [for v := range ch] obtains. *)
Inductive rx (T : Type) : Type :=
| Got (v : T)
| Eof.
Arguments Eof {T}.

(** ** Goroutines *)

(** A generator is a caller's function that is handed the channel. It
    sends some values and then returns or panics. *)
Inductive genprog (T : Type) : Type :=
| GSend (v : T) (k : genprog T)   (* ch <- v; ... *)
| GReturn
| GPanic.
Arguments GReturn {T}.
Arguments GPanic {T}.

(** [for _, v := range items { ch <- v }] *)
Fixpoint feed {T} (items : list T) : genprog T :=
  match items with
  | [] => GReturn
  | v :: rest => GSend v (feed rest)
  end.

(** The body of a stage, [for v := range s.stream { ... out <- w ... }]:
    waiting at the range clause, or holding a value at the send. *)
Inductive loop (T : Type) : Type :=
| AtRange
| AtSend (v : T).
Arguments AtRange {T}.

(** Every goroutine of the package is [defer close(ch); body]. It runs the
    body; when the body returns or panics the deferred close runs; after
    that the goroutine has exited, or the panic, which nothing recovers,
    has ended the program. *)
Inductive goroutine (code : Type) : Type :=
| Running (c : code)
| Deferred (panicking : bool)
| Exited
| Crashed.
Arguments Deferred {code}.
Arguments Exited {code}.
Arguments Crashed {code}.

Definition finished {code} (w : goroutine code) : bool :=
  match w with
  | Exited | Crashed => true
  | _ => false
  end.

Definition has_crashed {code} (w : goroutine code) : bool :=
  match w with
  | Crashed => true
  | _ => false
  end.

(** ** Chains *)

(** [Origin w ch]: the goroutine [w] runs a generator on [ch].
    [Link up body w ch]: the goroutine [w] ranges over the channel of [up],
    and sends [b] on [ch] for each [v] with [body v = Some b]. *)
Inductive chain (T : Type) : Type :=
| Origin (w : goroutine (genprog T)) (ch : chan T)
| Link (A : Type) (up : chain A) (body : A -> option T)
       (w : goroutine (loop T)) (ch : chan T).

Definition out {T} (p : chain T) : chan T :=
  match p with
  | Origin _ ch => ch
  | Link _ _ _ ch => ch
  end.

(** The value a goroutine blocked at a send is offering. *)
Definition gen_offer {T} (w : goroutine (genprog T))
  : option (T * goroutine (genprog T)) :=
  match w with
  | Running (GSend v k) => Some (v, Running k)
  | _ => None
  end.

Definition loop_offer {T} (w : goroutine (loop T))
  : option (T * goroutine (loop T)) :=
  match w with
  | Running (AtSend v) => Some (v, Running AtRange)
  | _ => None
  end.

(** A receive on [ch], whose sender is [w]: the oldest buffered element; or
    end of channel when it is closed and empty; or, on an unbuffered
    channel, the value of the sender waiting at its send, which proceeds.
    [None]: the receiver blocks. *)
Definition chan_recv {T W} (offer : option (T * W)) (w : W) (ch : chan T)
  : option (rx T * W * chan T) :=
  match buf ch with
  | v :: rest => Some (Got v, w, set_buf ch rest)
  | [] =>
      if closed ch then Some (Eof, w, ch)
      else if cap ch =? 0 then
        match offer with
        | Some (v, w') => Some (Got v, w', ch)
        | None => None
        end
      else None
  end.

(** A send [ch <- v] by a goroutine on its own: it panics on a closed
    channel, goes through when the buffer has room, and blocks otherwise
    (on an unbuffered channel it waits for a receiver, see [chan_recv]). *)
Definition chan_send {T code} (v : T) (k : code) (ch : chan T)
  : option (goroutine code * chan T) :=
  if closed ch then Some (Deferred true, ch)
  else if Z.of_nat (length (buf ch)) <? cap ch
       then Some (Running k, set_buf ch (buf ch ++ [v]))
       else None.

(** The deferred [close(ch)]; closing a closed channel panics. *)
Definition deferred_close {T code} (panicking : bool) (ch : chan T)
  : goroutine code * chan T :=
  if closed ch then (Crashed, ch)
  else (if panicking then Crashed else Exited, set_closed ch).

Definition pack_origin {T} (r : rx T * goroutine (genprog T) * chan T)
  : rx T * chain T :=
  let '(x, w, ch) := r in (x, Origin w ch).

Definition pack_link {A T} (up : chain A) (body : A -> option T)
    (r : rx T * goroutine (loop T) * chan T) : rx T * chain T :=
  let '(x, w, ch) := r in (x, Link up body w ch).

(** A receive on the channel at the end of a chain. *)
Definition recv {T} (p : chain T) : option (rx T * chain T) :=
  match p with
  | Origin w ch => option_map pack_origin (chan_recv (gen_offer w) w ch)
  | Link up body w ch =>
      option_map (pack_link up body) (chan_recv (loop_offer w) w ch)
  end.

(** One step of the goroutine of an origin. *)
Definition origin_step {T} (w : goroutine (genprog T)) (ch : chan T)
  : option (goroutine (genprog T) * chan T) :=
  match w with
  | Running (GSend v k) => chan_send v k ch
  | Running GReturn => Some (Deferred false, ch)
  | Running GPanic => Some (Deferred true, ch)
  | Deferred b => Some (deferred_close b ch)
  | Exited | Crashed => None
  end.

(** One step of the goroutine of a stage. *)
Definition link_step {A T} (up : chain A) (body : A -> option T)
    (w : goroutine (loop T)) (ch : chan T) : option (chain T) :=
  match w with
  | Running AtRange =>
      match recv up with
      | Some (Got v, up') =>
          match body v with
          | Some b => Some (Link up' body (Running (AtSend b)) ch)
          | None => Some (Link up' body (Running AtRange) ch)
          end
      | Some (Eof, up') => Some (Link up' body (Deferred false) ch)
      | None => None
      end
  | Running (AtSend v) =>
      match chan_send v AtRange ch with
      | Some (w', ch') => Some (Link up body w' ch')
      | None => None
      end
  | Deferred b =>
      let '(w', ch') := deferred_close b ch in Some (Link up body w' ch')
  | Exited | Crashed => None
  end.

(** [work i p]: the goroutine [i] stages above the end of [p] takes a step;
    [None] when it is blocked or gone. *)
Fixpoint work {T} (i : nat) (p : chain T) : option (chain T) :=
  match p with
  | Origin w ch =>
      match i with
      | O =>
          match origin_step w ch with
          | Some (w', ch') => Some (Origin w' ch')
          | None => None
          end
      | S _ => None
      end
  | Link up body w ch =>
      match i with
      | O => link_step up body w ch
      | S j =>
          match work j up with
          | Some up' => Some (Link up' body w ch)
          | None => None
          end
      end
  end.

(** An unrecovered panic in any goroutine ends the program. *)
Fixpoint crashed {T} (p : chain T) : bool :=
  match p with
  | Origin w _ => has_crashed w
  | Link up _ w _ => has_crashed w || crashed up
  end.

Fixpoint depth {T} (p : chain T) : nat :=
  match p with
  | Origin _ _ => 1
  | Link up _ _ _ => S (depth up)
  end.

(** ** The package *)

(** [streamable] and [bufferedStream] hold the receiving end of a channel;
    here the chain that feeds it. The field [stream] of [bufferedStream] is
    [bstream]. *)
Record streamable (T : Type) : Type := mk_streamable {
  stream : chain T
}.

Record bufferedStream (T : Type) : Type := mk_bufferedStream {
  bstream : chain T;
  BufferSize : Z
}.

Record iterable (T : Type) : Type := mk_iterable {
  items : slice T
}.

(** The bodies of the stage loops. *)
Definition pipe_body {A} (fn : A -> any) (v : A) : option any := Some (fn v).

Definition filter_body {A} (fn : A -> bool) (v : A) : option A :=
  if fn v then Some v else None.

Definition relay_body {A} (v : A) : option A := Some v.

Definition recast_body (t : gotype) (v : any) : option (denote t) :=
  type_assert t v.

(** [go func() { defer close(out); for v := range s.stream { ... } }()]
    with [out] the channel just made: a goroutine that has not run yet. *)
Definition spawn_stage {A T} (up : chain A) (body : A -> option T)
    (ch : chan T) : chain T :=
  Link up body (Running AtRange) ch.

Definition spawn_origin {T} (g : genprog T) (ch : chan T) : chain T :=
  Origin (Running g) ch.

(** streams.go *)
Module Streams.

Definition Streamify {T} (items : slice T) : streamable T :=
  mk_streamable (spawn_origin (feed (elems items)) (make_unbuffered T)).

Definition CreateStream {T} (generator : genprog T) : streamable T :=
  mk_streamable (spawn_origin generator (make_unbuffered T)).

Definition Pipe {T} (fn : T -> any) (s : streamable T) : streamable any :=
  mk_streamable (spawn_stage (stream s) (pipe_body fn) (make_unbuffered any)).

Definition Filter {T} (fn : T -> bool) (s : streamable T) : streamable T :=
  mk_streamable (spawn_stage (stream s) (filter_body fn) (make_unbuffered T)).

(** The composite literal leaves [BufferSize] out: it is zero. *)
Definition ToBufferedStream {T} (s : streamable T) (bufferSize : Z)
  : option (bufferedStream T) :=
  match make_chan T bufferSize with
  | Some ch => Some (mk_bufferedStream (spawn_stage (stream s) relay_body ch) 0)
  | None => None
  end.

Definition RecastStream (t : gotype) (s : streamable any)
  : streamable (denote t) :=
  mk_streamable
    (spawn_stage (stream s) (recast_body t) (make_unbuffered (denote t))).

End Streams.

(** bufferedStreams.go *)
Module BufferedStreams.

Definition StreamifyWithBuffer {T} (items : slice T) (bufferSize : Z)
  : option (bufferedStream T) :=
  match make_chan T bufferSize with
  | Some ch =>
      Some (mk_bufferedStream (spawn_origin (feed (elems items)) ch) bufferSize)
  | None => None
  end.

Definition CreateBufferedStream {T} (generator : genprog T) (bufferSize : Z)
  : option (bufferedStream T) :=
  match make_chan T bufferSize with
  | Some ch => Some (mk_bufferedStream (spawn_origin generator ch) bufferSize)
  | None => None
  end.

Definition Pipe {T} (fn : T -> any) (s : bufferedStream T)
  : option (bufferedStream any) :=
  match make_chan any (BufferSize s) with
  | Some out =>
      Some (mk_bufferedStream (spawn_stage (bstream s) (pipe_body fn) out)
                              (BufferSize s))
  | None => None
  end.

Definition Filter {T} (fn : T -> bool) (s : bufferedStream T)
  : option (bufferedStream T) :=
  match make_chan T (BufferSize s) with
  | Some out =>
      Some (mk_bufferedStream (spawn_stage (bstream s) (filter_body fn) out)
                              (BufferSize s))
  | None => None
  end.

Definition ToStream {T} (s : bufferedStream T) : streamable T :=
  mk_streamable (spawn_stage (bstream s) relay_body (make_unbuffered T)).

Definition RecastBufferedStream (t : gotype) (s : bufferedStream any)
  : option (bufferedStream (denote t)) :=
  match make_chan (denote t) (BufferSize s) with
  | Some out =>
      Some (mk_bufferedStream (spawn_stage (bstream s) (recast_body t) out)
                              (BufferSize s))
  | None => None
  end.

End BufferedStreams.

(** The slice helpers. *)
Module Slices.

Definition Slicefy {T} (items : slice T) : iterable T := mk_iterable items.

Definition ToSlice {T} (c : iterable T) : slice T := items c.

(** [None] would be a run-time panic of the slice expression. *)
Definition Slice {T} (c : iterable T) (start end_ : Z) : option (iterable T) :=
  if (start <? 0) || (end_ >? len (items c)) || (start >? end_)
  then Some (mk_iterable (mk_slice []))
  else option_map (@mk_iterable T) (reslice (items c) start end_).

Definition ToStream {T} (c : iterable T) : streamable T :=
  mk_streamable (spawn_origin (feed (elems (items c))) (make_unbuffered T)).

Definition ToBufferedStream {T} (c : iterable T) (bufferSize : Z)
  : option (bufferedStream T) :=
  match make_chan T bufferSize with
  | Some ch =>
      Some (mk_bufferedStream (spawn_origin (feed (elems (items c))) ch) 0)
  | None => None
  end.

End Slices.

(** ** The caller of [ToSlice] *)

(** [var result []T; for v := range s.stream { result = append(result, v) };
    return result], as the state of the calling goroutine next to the chain
    it drains. *)
Record call (T : Type) : Type := mk_call {
  upstream : chain T;
  result : slice T;
  returned : bool
}.

Definition ToSlice {T} (p : chain T) : call T := mk_call p nil_slice false.

Inductive actor : Type :=
| Caller
| Worker (i : nat).

Definition caller_step {T} (s : call T) : option (call T) :=
  if returned s then None
  else match recv (upstream s) with
       | Some (Got v, p') => Some (mk_call p' (append (result s) v) false)
       | Some (Eof, p') => Some (mk_call p' (result s) true)
       | None => None
       end.

Definition worker_step {T} (i : nat) (s : call T) : option (call T) :=
  match work i (upstream s) with
  | Some p' => Some (mk_call p' (result s) (returned s))
  | None => None
  end.

(** The step of actor [a], when it can take one and the program is alive. *)
Definition step_at {T} (a : actor) (s : call T) : option (call T) :=
  if crashed (upstream s) then None
  else match a with
       | Caller => caller_step s
       | Worker i => worker_step i s
       end.

Definition step {T} (s s' : call T) : Prop :=
  exists a, step_at a s = Some s'.

Inductive steps {T} : nat -> call T -> call T -> Prop :=
| steps_O : forall s, steps O s s
| steps_S : forall n s s' s'', step s s' -> steps n s' s'' -> steps (S n) s s''.

Definition reachable {T} (s0 s : call T) : Prop := exists n, steps n s0 s.

(** The call returns [r] under every schedule: whatever steps were taken, a
    further step is possible until the call has returned, no run is longer
    than some bound, and the value returned is [r]. *)
Definition always_returns {T} (s0 : call T) (r : slice T) : Prop :=
  (forall s, reachable s0 s -> returned s = false -> exists s', step s s')
  /\ (exists bound, forall n s, steps n s0 s -> (n <= bound)%nat)
  /\ (forall s, reachable s0 s -> returned s = true -> result s = r).

(** A run under a given schedule; an actor that cannot move is skipped. *)
Fixpoint run {T} (sched : list actor) (s : call T) : call T :=
  match sched with
  | [] => s
  | a :: rest =>
      match step_at a s with
      | Some s' => run rest s'
      | None => run rest s
      end
  end.

(** Round robin over the caller and the workers, [n] rounds. *)
Definition everyone {T} (p : chain T) : list actor :=
  Caller :: map Worker (seq 0 (depth p)).

Fixpoint rounds {T} (n : nat) (s : call T) : call T :=
  match n with
  | O => s
  | S m => rounds m (run (everyone (upstream s)) s)
  end.

(** ** What a chain still has to deliver, and the channel protocol *)

Fixpoint gen_sends {T} (g : genprog T) : list T :=
  match g with
  | GSend v k => v :: gen_sends k
  | GReturn | GPanic => []
  end.

Fixpoint gen_panics {T} (g : genprog T) : bool :=
  match g with
  | GSend _ k => gen_panics k
  | GReturn => false
  | GPanic => true
  end.

Definition origin_pending {T} (w : goroutine (genprog T)) : list T :=
  match w with
  | Running g => gen_sends g
  | _ => []
  end.

Definition loop_pending {T} (w : goroutine (loop T)) : list T :=
  match w with
  | Running (AtSend v) => [v]
  | _ => []
  end.

(** The values a stage sends for the values it receives, in order. *)
Fixpoint forward {A B} (body : A -> option B) (l : list A) : list B :=
  match l with
  | [] => []
  | v :: rest =>
      match body v with
      | Some b => b :: forward body rest
      | None => forward body rest
      end
  end.

(** The values a receiver at the end of the chain has yet to obtain. *)
Fixpoint contents {T} (p : chain T) : list T :=
  match p with
  | Origin w ch => buf ch ++ origin_pending w
  | Link up body w ch => buf ch ++ loop_pending w ++ forward body (contents up)
  end.

(** What [ToSlice] has built after appending [l] to the nil slice. *)
Definition gather {T} (l : list T) : slice T :=
  match l with
  | [] => nil_slice
  | _ => mk_slice l
  end.

Definition past_body {code} (w : goroutine code) : bool :=
  match w with
  | Running _ => false
  | _ => true
  end.

Definition is_empty {T} (l : list T) : bool :=
  match l with
  | [] => true
  | _ => false
  end.

(** The channel is closed and nothing is left in it. *)
Definition drained {T} (p : chain T) : bool :=
  closed (out p) && is_empty (buf (out p)).

(** The capacity bounds the buffer, and the channel is closed exactly when
    its goroutine has run its deferred close. *)
Definition chan_ok {T code} (w : goroutine code) (ch : chan T) : bool :=
  (0 <=? cap ch) && (Z.of_nat (length (buf ch)) <=? cap ch)
  && eqb (closed ch) (finished w).

(** The protocol every chain of the package obeys: each channel is
    [chan_ok], and a stage leaves its loop only when its upstream is
    drained. *)
Fixpoint wfb {T} (p : chain T) : bool :=
  match p with
  | Origin w ch => chan_ok w ch
  | Link up _ w ch => chan_ok w ch && wfb up && implb (past_body w) (drained up)
  end.

Definition wf {T} (p : chain T) : Prop := wfb p = true.

Definition calm {code} (ok : code -> bool) (w : goroutine code) : bool :=
  match w with
  | Running c => ok c
  | Deferred b => negb b
  | Exited => true
  | Crashed => false
  end.

(** No goroutine of the chain has panicked or is going to. *)
Fixpoint panic_free {T} (p : chain T) : bool :=
  match p with
  | Origin w _ => calm (fun g => negb (gen_panics g)) w
  | Link up _ w _ => calm (fun _ => true) w && panic_free up
  end.

(** ** A bound on the length of runs *)

Fixpoint gen_cost {T} (g : genprog T) : nat :=
  match g with
  | GSend _ k => S (gen_cost k)
  | GReturn | GPanic => 2
  end.

Definition origin_cost {T} (w : goroutine (genprog T)) : nat :=
  match w with
  | Running g => gen_cost g
  | Deferred _ => 1
  | Exited | Crashed => 0
  end.

Definition loop_cost {T} (w : goroutine (loop T)) : nat :=
  match w with
  | Running AtRange => 2
  | Running (AtSend _) => 3
  | Deferred _ => 1
  | Exited | Crashed => 0
  end.

(** At most this many values are still to come out of the chain. *)
Fixpoint size {T} (p : chain T) : nat :=
  match p with
  | Origin w ch => length (buf ch) + length (origin_pending w)
  | Link up _ w ch => length (buf ch) + length (loop_pending w) + size up
  end.

(** At most this many steps are left to the goroutines of the chain. *)
Fixpoint work_left {T} (p : chain T) : nat :=
  match p with
  | Origin w _ => origin_cost w
  | Link up _ w _ => work_left up + 2 * size up + loop_cost w
  end.

Definition steps_left {T} (s : call T) : nat :=
  work_left (upstream s) + size (upstream s) + (if returned s then 0 else 1).

(** The goroutine of a chain's last stage, seen without its code. *)
Definition last_worker {T} (p : chain T) : goroutine unit :=
  match p with
  | Origin (Running _) _ | Link _ _ (Running _) _ => Running tt
  | Origin (Deferred b) _ | Link _ _ (Deferred b) _ => Deferred b
  | Origin Exited _ | Link _ _ Exited _ => Exited
  | Origin Crashed _ | Link _ _ Crashed _ => Crashed
  end.

(** The goroutine of an origin on its own, [n] steps, before anything is
    received: [None] as soon as it cannot move. *)
Fixpoint produce {T} (n : nat) (p : chain T) : option (chain T) :=
  match n with
  | O => Some p
  | S m =>
      match work 0 p with
      | Some p' => produce m p'
      | None => None
      end
  end.

(** Any step on a chain, whoever is at the receiving end. *)
Definition chain_step {T} (p p' : chain T) : Prop :=
  crashed p = false /\
  ((exists i, work i p = Some p') \/ (exists r, recv p = Some (r, p'))).

Inductive chain_steps {T} : chain T -> chain T -> Prop :=
| chain_steps_refl : forall p, chain_steps p p
| chain_steps_step : forall p p' p'',
    chain_step p p' -> chain_steps p' p'' -> chain_steps p p''.

(** What holds of a call of [ToSlice] on a chain that had [l] to deliver:
    the values appended so far and the values yet to come make up [l]. *)
Definition call_ok {T} (l : list T) (s : call T) : Prop :=
  wf (upstream s)
  /\ exists pre,
       result s = gather pre
       /\ pre ++ contents (upstream s) = l
       /\ (returned s = true -> drained (upstream s) = true).

(** An origin whose generator is going to panic, is panicking, or has. *)
Definition doomed {T} (p : chain T) : bool :=
  match p with
  | Origin (Running g) ch => gen_panics g && negb (closed ch)
  | Origin (Deferred true) ch => negb (closed ch)
  | Origin Crashed _ => true
  | _ => false
  end.

(** ** The other methods of [iterable] *)

(** [append(s, other...)]: with nothing to append the slice itself comes
    back, nil if it was nil. The array that the result may share with [s]
    is not modelled. *)
Definition append_all {T} (s other : slice T) : slice T :=
  match elems other with
  | [] => s
  | _ => mk_slice (elems s ++ elems other)
  end.

Module Iterable.

(** [var result []T; for _, v := range c.items { if fn(v) { result =
    append(result, v) } }] *)
Definition Filter {T} (fn : T -> bool) (c : iterable T) : iterable T :=
  mk_iterable
    (fold_left (fun result v => if fn v then append result v else result)
               (elems (items c)) nil_slice).

(** [fn] acts on the state of the caller, [St]. *)
Definition ForEach {T St} (fn : T -> St -> St) (c : iterable T) (st : St) : St :=
  fold_left (fun st v => fn v st) (elems (items c)) st.

Definition Map {T} (fn : T -> any) (c : iterable T) : iterable any :=
  mk_iterable
    (fold_left (fun result v => append result (fn v))
               (elems (items c)) nil_slice).

Definition Reduce {T} (fn : T -> T -> T) (initial : T) (c : iterable T) : T :=
  fold_left (fun acc v => fn acc v) (elems (items c)) initial.

(** [for _, v := range c.items { if fn(v) { return &v } }; return nil] *)
Fixpoint find_loop {T} (fn : T -> bool) (l : list T) : option T :=
  match l with
  | [] => None
  | v :: rest => if fn v then Some v else find_loop fn rest
  end.

Definition Find {T} (fn : T -> bool) (c : iterable T) : option T :=
  find_loop fn (elems (items c)).

Fixpoint some_loop {T} (fn : T -> bool) (l : list T) : bool :=
  match l with
  | [] => false
  | v :: rest => if fn v then true else some_loop fn rest
  end.

(** The method [Some]. *)
Definition Some_ {T} (fn : T -> bool) (c : iterable T) : bool :=
  some_loop fn (elems (items c)).

Fixpoint every_loop {T} (fn : T -> bool) (l : list T) : bool :=
  match l with
  | [] => true
  | v :: rest => if negb (fn v) then false else every_loop fn rest
  end.

Definition Every {T} (fn : T -> bool) (c : iterable T) : bool :=
  every_loop fn (elems (items c)).

Definition Concat {T} (c : iterable T) (other : slice T) : iterable T :=
  mk_iterable (append_all (items c) other).

Definition RecastSlice (t : gotype) (input : iterable any)
  : iterable (denote t) :=
  mk_iterable
    (fold_left (fun result v =>
                  match type_assert t v with
                  | Some casted => append result casted
                  | None => result
                  end)
               (elems (items input)) nil_slice).

End Iterable.

(** ** The caller of [ForEach] on a stream *)

(** [for v := range s.stream { fn(v) }], with the state [St] that [fn] acts
    on, next to the chain it drains. *)
Record visit (T St : Type) : Type := mk_visit {
  v_upstream : chain T;
  v_state : St;
  v_returned : bool
}.

Definition ForEach {T St} (p : chain T) (st : St) : visit T St :=
  mk_visit p st false.

Definition visit_step_at {T St} (fn : T -> St -> St) (a : actor)
    (s : visit T St) : option (visit T St) :=
  if crashed (v_upstream s) then None
  else match a with
       | Caller =>
           if v_returned s then None
           else match recv (v_upstream s) with
                | Some (Got v, p') => Some (mk_visit p' (fn v (v_state s)) false)
                | Some (Eof, p') => Some (mk_visit p' (v_state s) true)
                | None => None
                end
       | Worker i =>
           match work i (v_upstream s) with
           | Some p' => Some (mk_visit p' (v_state s) (v_returned s))
           | None => None
           end
       end.

Definition visit_step {T St} (fn : T -> St -> St) (s s' : visit T St) : Prop :=
  exists a, visit_step_at fn a s = Some s'.

Inductive visit_steps {T St} (fn : T -> St -> St)
  : nat -> visit T St -> visit T St -> Prop :=
| visit_steps_O : forall s, visit_steps fn O s s
| visit_steps_S : forall n s s' s'',
    visit_step fn s s' -> visit_steps fn n s' s'' ->
    visit_steps fn (S n) s s''.

(** [ForEach] returns, leaving the state [st], under every schedule. *)
Definition visit_always_returns {T St} (fn : T -> St -> St)
    (s0 : visit T St) (st : St) : Prop :=
  (forall n s, visit_steps fn n s0 s -> v_returned s = false ->
               exists s', visit_step fn s s')
  /\ (exists bound, forall n s, visit_steps fn n s0 s -> (n <= bound)%nat)
  /\ (forall n s, visit_steps fn n s0 s -> v_returned s = true ->
                  v_state s = st).

(** What holds of a call of [ForEach] on a chain that had [l] to deliver. *)
Definition visit_ok {T St} (fn : T -> St -> St) (st0 : St) (l : list T)
    (s : visit T St) : Prop :=
  wf (v_upstream s)
  /\ exists pre,
       v_state s = fold_left (fun st v => fn v st) pre st0
       /\ pre ++ contents (v_upstream s) = l
       /\ (v_returned s = true -> drained (v_upstream s) = true).

(** ** Capacities and values in flight *)

(** The capacities of the channels of a chain, last stage first. *)
Fixpoint caps {T} (p : chain T) : list Z :=
  match p with
  | Origin _ ch => [cap ch]
  | Link up _ _ ch => cap ch :: caps up
  end.

(** The values held in the channels of a chain. *)
Fixpoint buffered {T} (p : chain T) : nat :=
  match p with
  | Origin _ ch => length (buf ch)
  | Link up _ _ ch => length (buf ch) + buffered up
  end.

(** The values in the channels, and in the hands of the stages. *)
Fixpoint in_flight {T} (p : chain T) : nat :=
  match p with
  | Origin _ ch => length (buf ch)
  | Link up _ w ch => length (buf ch) + length (loop_pending w) + in_flight up
  end.

Definition sum_caps (l : list Z) : Z := fold_right Z.add 0 l.

(** * Proofs *)

(** ** Values *)

Lemma gotype_eq_dec_refl (t : gotype) : gotype_eq_dec t t = left eq_refl.
Proof. destruct t; reflexivity. Qed.

Lemma type_assert_dyn (t : gotype) (x : denote t) :
  type_assert t (dyn t x) = Some x.
Proof. simpl. rewrite gotype_eq_dec_refl. reflexivity. Qed.

Lemma type_assert_some (t : gotype) (v : any) (x : denote t) :
  type_assert t v = Some x -> v = dyn t x.
Proof.
  destruct v as [|t' y]; simpl; [discriminate|].
  destruct (gotype_eq_dec t' t) as [e|ne]; [|discriminate].
  subst t'. simpl. intros H. injection H as ->. reflexivity.
Qed.

Lemma type_assert_none (t : gotype) (v : any) :
  type_assert t v = None <-> has_type t v = false.
Proof.
  destruct v as [|t' y]; simpl; [tauto|].
  unfold has_type; simpl.
  destruct (gotype_eq_dec t' t); split; congruence.
Qed.

Lemma gather_elems {T} (l : list T) : elems (gather l) = l.
Proof. destruct l; reflexivity. Qed.

Lemma append_gather {T} (l : list T) (v : T) :
  append (gather l) v = gather (l ++ [v]).
Proof. destruct l; reflexivity. Qed.

Lemma forward_pipe {A} (fn : A -> any) (l : list A) :
  forward (pipe_body fn) l = map fn l.
Proof. induction l as [|v l IH]; simpl; [|rewrite IH]; reflexivity. Qed.

Lemma forward_filter {A} (fn : A -> bool) (l : list A) :
  forward (filter_body fn) l = filter fn l.
Proof.
  induction l as [|v l IH]; simpl; [reflexivity|].
  unfold filter_body at 1. destruct (fn v); rewrite IH; reflexivity.
Qed.

Lemma forward_relay {A} (l : list A) : forward relay_body l = l.
Proof. induction l as [|v l IH]; simpl; [|rewrite IH]; reflexivity. Qed.

Lemma forward_recast (t : gotype) (l : list any) :
  map (dyn t) (forward (recast_body t) l) = filter (has_type t) l.
Proof.
  induction l as [|v l IH]; simpl; [reflexivity|].
  unfold recast_body at 1.
  destruct (type_assert t v) as [x|] eqn:E.
  - apply type_assert_some in E. subst v.
    unfold has_type; simpl. rewrite gotype_eq_dec_refl. simpl.
    rewrite IH. reflexivity.
  - apply type_assert_none in E. rewrite E. exact IH.
Qed.

Lemma gen_sends_feed {T} (l : list T) : gen_sends (feed l) = l.
Proof. induction l as [|v l IH]; simpl; [|rewrite IH]; reflexivity. Qed.

Lemma gen_panics_feed {T} (l : list T) : gen_panics (feed l) = false.
Proof. induction l as [|v l IH]; simpl; auto. Qed.

(** ** Channel operations *)

Lemma make_chan_some (T : Type) (size : Z) :
  0 <= size -> make_chan T size = Some (mk_chan [] size false).
Proof.
  intros H. unfold make_chan.
  destruct (size <? 0) eqn:E; [apply Z.ltb_lt in E; lia | reflexivity].
Qed.

Lemma chan_recv_got {T W} (offer : option (T * W)) (w w' : W)
    (ch ch' : chan T) (v : T) :
  chan_recv offer w ch = Some (Got v, w', ch') ->
  (exists rest, buf ch = v :: rest /\ w' = w /\ ch' = set_buf ch rest)
  \/ (buf ch = [] /\ ch' = ch /\ closed ch = false /\ cap ch = 0
      /\ offer = Some (v, w')).
Proof.
  unfold chan_recv. destruct (buf ch) as [|x rest] eqn:B.
  - destruct (closed ch) eqn:C; [discriminate|].
    destruct (cap ch =? 0) eqn:K; [|discriminate].
    destruct offer as [[x w1]|]; [|discriminate].
    intros H. injection H as -> -> ->. right.
    apply Z.eqb_eq in K. auto.
  - intros H. injection H as -> -> <-. left. exists rest. auto.
Qed.

Lemma chan_recv_eof {T W} (offer : option (T * W)) (w w' : W)
    (ch ch' : chan T) :
  chan_recv offer w ch = Some (Eof, w', ch') ->
  w' = w /\ ch' = ch /\ buf ch = [] /\ closed ch = true.
Proof.
  unfold chan_recv. destruct (buf ch) as [|x rest] eqn:B; [|discriminate].
  destruct (closed ch) eqn:C.
  - intros H. injection H as -> ->. auto.
  - destruct (cap ch =? 0); [|discriminate].
    destruct offer as [[x w1]|]; discriminate.
Qed.

Lemma gen_offer_some {T} (w w' : goroutine (genprog T)) (v : T) :
  gen_offer w = Some (v, w') ->
  exists k, w = Running (GSend v k) /\ w' = Running k.
Proof.
  destruct w as [[x k| |]|b| |]; simpl; try discriminate.
  intros H. injection H as -> <-. eauto.
Qed.

Lemma loop_offer_some {T} (w w' : goroutine (loop T)) (v : T) :
  loop_offer w = Some (v, w') ->
  w = Running (AtSend v) /\ w' = Running AtRange.
Proof.
  destruct w as [[|x]|b| |]; simpl; try discriminate.
  intros H. injection H as -> <-. auto.
Qed.

Lemma chan_send_inv {T code} (v : T) (k : code) (ch ch' : chan T)
    (w' : goroutine code) :
  chan_send v k ch = Some (w', ch') ->
  (closed ch = true /\ w' = Deferred true /\ ch' = ch)
  \/ (closed ch = false /\ Z.of_nat (length (buf ch)) < cap ch
      /\ w' = Running k /\ ch' = set_buf ch (buf ch ++ [v])).
Proof.
  unfold chan_send. destruct (closed ch); [intros H; injection H as <- <-; auto|].
  destruct (Z.of_nat (length (buf ch)) <? cap ch) eqn:E; [|discriminate].
  apply Z.ltb_lt in E. intros H. injection H as <- <-. right. auto.
Qed.

Lemma chan_ok_inv {T code} (w : goroutine code) (ch : chan T) :
  chan_ok w ch = true ->
  0 <= cap ch /\ Z.of_nat (length (buf ch)) <= cap ch
  /\ closed ch = finished w.
Proof.
  unfold chan_ok. rewrite !andb_true_iff, !Z.leb_le, eqb_true_iff. tauto.
Qed.

Lemma chan_ok_intro {T code} (w : goroutine code) (ch : chan T) :
  0 <= cap ch -> Z.of_nat (length (buf ch)) <= cap ch ->
  closed ch = finished w -> chan_ok w ch = true.
Proof.
  unfold chan_ok. rewrite !andb_true_iff, !Z.leb_le, eqb_true_iff. tauto.
Qed.

(** ** Receiving from a chain *)

Ltac recv_got_node H w ch :=
  let E := fresh "E" in
  let x0 := fresh "x" in
  let w0 := fresh "w" in
  let ch0 := fresh "ch" in
  destruct (chan_recv _ w ch) as [[[x0 w0] ch0]|] eqn:E; simpl in H;
  [ injection H as -> <-;
    apply chan_recv_got in E;
    destruct E as [(rest & B & -> & ->) | (B & -> & C & K & Ho)]
  | discriminate ].

Ltac recv_got_cases H :=
  match type of H with
  | recv ?p = Some (Got _, _) =>
      destruct p as [w ch | A up body w ch]; simpl in H;
      [ recv_got_node H w ch;
        [ | match goal with
            | Hx : gen_offer _ = Some _ |- _ =>
                apply gen_offer_some in Hx; destruct Hx as (k & -> & ->)
            end ]
      | recv_got_node H w ch;
        [ | match goal with
            | Hx : loop_offer _ = Some _ |- _ =>
                apply loop_offer_some in Hx; destruct Hx as (-> & ->)
            end ] ]
  end.

Lemma recv_got_contents {T} (p p' : chain T) (v : T) :
  recv p = Some (Got v, p') -> contents p = v :: contents p'.
Proof.
  intros H. recv_got_cases H; simpl; rewrite B; reflexivity.
Qed.

Lemma recv_got_size {T} (p p' : chain T) (v : T) :
  recv p = Some (Got v, p') -> size p = S (size p').
Proof.
  intros H. recv_got_cases H; simpl; rewrite B; simpl; lia.
Qed.

Lemma recv_got_work_left {T} (p p' : chain T) (v : T) :
  recv p = Some (Got v, p') -> (work_left p' <= work_left p)%nat.
Proof.
  intros H. recv_got_cases H; simpl; lia.
Qed.

Lemma recv_got_wf {T} (p p' : chain T) (v : T) :
  recv p = Some (Got v, p') -> wf p -> wf p'.
Proof.
  unfold wf. intros H. recv_got_cases H; simpl;
    rewrite ?andb_true_iff; intros W;
    repeat match goal with
           | W : _ /\ _ |- _ => destruct W
           | W : chan_ok _ _ = true |- _ =>
               apply chan_ok_inv in W; simpl in W; destruct W as (? & ? & ?)
           end;
    repeat split; auto; apply chan_ok_intro; simpl; auto;
    rewrite B in *; simpl in *; lia.
Qed.

Lemma recv_got_panic_free {T} (p p' : chain T) (v : T) :
  recv p = Some (Got v, p') -> panic_free p = true -> panic_free p' = true.
Proof.
  intros H. recv_got_cases H; simpl; auto.
Qed.

Lemma recv_got_cap {T} (p p' : chain T) (v : T) :
  recv p = Some (Got v, p') ->
  cap (out p') = cap (out p) /\ (length (buf (out p')) <= length (buf (out p)))%nat.
Proof.
  intros H. recv_got_cases H; simpl; rewrite ?B; simpl; auto.
Qed.

Lemma recv_eof_inv {T} (p p' : chain T) :
  recv p = Some (Eof, p') -> p' = p /\ drained p = true.
Proof.
  intros H.
  destruct p as [w ch | A up body w ch]; simpl in H;
    (destruct (chan_recv _ w ch) as [[[x0 w0] ch0]|] eqn:E;
     simpl in H; [|discriminate];
     injection H as -> <-;
     apply chan_recv_eof in E; destruct E as (-> & -> & B & C);
     unfold drained; simpl; rewrite B, C; auto).
Qed.

Lemma drained_inv {T} (p : chain T) :
  drained p = true -> closed (out p) = true /\ buf (out p) = [].
Proof.
  unfold drained. rewrite andb_true_iff. intros [C B]. split; [exact C|].
  destruct (buf (out p)); [reflexivity | discriminate].
Qed.

Lemma finished_past_body {code} (w : goroutine code) :
  finished w = true -> past_body w = true.
Proof. destruct w; simpl; auto. Qed.

Lemma finished_origin_pending {T} (w : goroutine (genprog T)) :
  finished w = true -> origin_pending w = [].
Proof. destruct w; simpl; auto; discriminate. Qed.

Lemma past_body_loop_pending {T} (w : goroutine (loop T)) :
  past_body w = true -> loop_pending w = [].
Proof. destruct w; simpl; auto; discriminate. Qed.

(** A drained chain has nothing more to deliver. *)
Lemma drained_contents {T} (p : chain T) :
  wf p -> drained p = true -> contents p = [].
Proof.
  unfold wf. induction p as [T w ch | T A up IH body w ch]; simpl.
  - intros W D. apply chan_ok_inv in W. destruct W as (_ & _ & F).
    apply drained_inv in D. simpl in D. destruct D as [C B].
    rewrite B, finished_origin_pending; [reflexivity | congruence].
  - rewrite !andb_true_iff. intros [[W Wup] P] D.
    apply chan_ok_inv in W. destruct W as (_ & _ & F).
    apply drained_inv in D. simpl in D. destruct D as [C B].
    assert (Pw : past_body w = true) by (apply finished_past_body; congruence).
    rewrite Pw in P. simpl in P.
    rewrite B, (past_body_loop_pending _ Pw), (IH Wup P). reflexivity.
Qed.

(** ** Steps of the goroutines *)

Lemma deferred_close_open {T code} (b : bool) (ch : chan T) :
  closed ch = false ->
  @deferred_close T code b ch = (if b then Crashed else Exited, set_closed ch).
Proof. unfold deferred_close. intros ->. reflexivity. Qed.

Ltac chan_ok_hyps :=
  repeat match goal with
         | W : _ && _ = true |- _ => apply andb_true_iff in W; destruct W
         | W : chan_ok _ _ = true |- _ =>
             apply chan_ok_inv in W; simpl in W; destruct W as (? & ? & ?)
         end.

Lemma origin_step_sound {T} (w w' : goroutine (genprog T)) (ch ch' : chan T) :
  origin_step w ch = Some (w', ch') ->
  chan_ok w ch = true ->
  chan_ok w' ch' = true
  /\ buf ch' ++ origin_pending w' = buf ch ++ origin_pending w
  /\ cap ch' = cap ch
  /\ (closed ch = true -> False).
Proof.
  intros H W. chan_ok_hyps.
  destruct w as [[v k| |]|b| |]; simpl in *; try discriminate.
  - apply chan_send_inv in H.
    destruct H as [(C & _) | (C & L & -> & ->)]; [congruence|].
    simpl. repeat split; try congruence.
    + apply chan_ok_intro; simpl; auto. rewrite length_app; simpl. lia.
    + rewrite <- app_assoc. reflexivity.
  - injection H as <- <-. repeat split; try congruence.
    apply chan_ok_intro; simpl; auto.
  - injection H as <- <-. repeat split; try congruence.
    apply chan_ok_intro; simpl; auto.
  - rewrite deferred_close_open in H by assumption.
    injection H as <- <-. destruct b; simpl; repeat split; try congruence;
      apply chan_ok_intro; simpl; auto.
Qed.

Lemma work_sound {T} (p : chain T) :
  forall i p', work i p = Some p' -> wf p ->
  wf p' /\ contents p' = contents p /\ cap (out p') = cap (out p)
  /\ (drained p = true -> drained p' = true).
Proof.
  unfold wf.
  induction p as [T w ch | T A up IH body w ch]; intros i p' H W.
  - destruct i; simpl in H; [|discriminate].
    destruct (origin_step w ch) as [[w' ch']|] eqn:E; [|discriminate].
    injection H as <-. simpl in W.
    destruct (origin_step_sound _ _ E W) as (W' & Cn & Cp & Op).
    simpl. repeat split; auto.
    intros D. apply drained_inv in D. simpl in D. tauto.
  - simpl in W. apply andb_true_iff in W. destruct W as [W P].
    apply andb_true_iff in W. destruct W as [W Wup].
    destruct i as [|j]; simpl in H.
    + pose proof (chan_ok_inv _ _ W) as (K0 & K1 & K2).
      destruct w as [[|v]|b| |]; simpl in H; try discriminate.
      * destruct (recv up) as [[[x|] up']|] eqn:R; [| |discriminate].
        -- pose proof (recv_got_contents _ R) as Cn.
           pose proof (recv_got_wf R Wup) as Wup'.
           destruct (body x) as [y|] eqn:Bx; injection H as <-; simpl;
             rewrite Cn; simpl; rewrite Bx;
             (repeat split; auto;
              try (rewrite !andb_true_iff; repeat split; auto);
              try (intros D; apply drained_inv in D; simpl in *;
                   destruct D; congruence)).
        -- injection H as <-. destruct (recv_eof_inv _ R) as [-> D].
           simpl. repeat split; auto;
             try (rewrite !andb_true_iff; repeat split; auto);
             try (intros D'; apply drained_inv in D'; simpl in *;
                  destruct D'; congruence).
      * destruct (chan_send v AtRange ch) as [[w' ch']|] eqn:S; [|discriminate].
        injection H as <-. apply chan_send_inv in S. simpl in K2.
        destruct S as [(C & _) | (C & L & -> & ->)]; [congruence|].
        simpl. repeat split; auto;
          try (rewrite !andb_true_iff; repeat split; auto);
          try (apply chan_ok_intro; simpl; auto; rewrite length_app; simpl; lia);
          try (rewrite <- app_assoc; reflexivity);
          try (intros D; apply drained_inv in D; simpl in D;
               destruct D; congruence).
      * simpl in K2. rewrite deferred_close_open in H by assumption.
        injection H as <-. simpl in P.
        destruct b; simpl; repeat split; auto;
          try (rewrite !andb_true_iff; repeat split; auto);
          try (apply chan_ok_intro; simpl; auto);
          try (intros D; apply drained_inv in D; simpl in D;
               destruct D; congruence).
    + destruct (work j up) as [up'|] eqn:E; [|discriminate].
      injection H as <-.
      destruct (IH _ _ E Wup) as (Wup' & Cn & Cp & Dp).
      simpl. rewrite Cn. repeat split; auto.
      rewrite !andb_true_iff. repeat split; auto.
      destruct (past_body w); simpl in *; auto.
Qed.

(** ** Every step uses up the bound *)

Lemma gen_cost_ge_2 {T} (g : genprog T) : (2 <= gen_cost g)%nat.
Proof. induction g; simpl; lia. Qed.

Lemma origin_step_measure {T} (w w' : goroutine (genprog T)) (ch ch' : chan T) :
  origin_step w ch = Some (w', ch') ->
  (length (buf ch') + length (origin_pending w')
   <= length (buf ch) + length (origin_pending w))%nat
  /\ (origin_cost w' < origin_cost w)%nat.
Proof.
  intros H.
  destruct w as [[v k| |]|b| |]; simpl in *; try discriminate.
  - pose proof (gen_cost_ge_2 k).
    apply chan_send_inv in H.
    destruct H as [(C & -> & ->) | (C & L & -> & ->)]; simpl;
      rewrite ?length_app; simpl; lia.
  - injection H as <- <-. simpl. lia.
  - injection H as <- <-. simpl. lia.
  - unfold deferred_close in H.
    destruct (closed ch), b; injection H as <- <-; simpl; lia.
Qed.

Lemma work_measure {T} (p : chain T) :
  forall i p', work i p = Some p' ->
  (size p' <= size p)%nat /\ (work_left p' < work_left p)%nat.
Proof.
  induction p as [T w ch | T A up IH body w ch]; intros i p' H.
  - destruct i; simpl in H; [|discriminate].
    destruct (origin_step w ch) as [[w' ch']|] eqn:E; [|discriminate].
    injection H as <-. simpl. apply origin_step_measure. exact E.
  - destruct i as [|j]; simpl in H.
    + destruct w as [[|v]|b| |]; simpl in H; try discriminate.
      * destruct (recv up) as [[[x|] up']|] eqn:R; [| |discriminate].
        -- pose proof (recv_got_size _ R) as Sz.
           pose proof (recv_got_work_left _ R) as Wl.
           destruct (body x) as [y|]; injection H as <-; simpl; lia.
        -- injection H as <-. destruct (recv_eof_inv _ R) as [-> D].
           simpl. lia.
      * destruct (chan_send v AtRange ch) as [[w' ch']|] eqn:S; [|discriminate].
        injection H as <-. apply chan_send_inv in S.
        destruct S as [(C & -> & ->) | (C & L & -> & ->)]; simpl;
          rewrite ?length_app; simpl; lia.
      * unfold deferred_close in H.
        destruct (closed ch), b; injection H as <-; simpl; lia.
    + destruct (work j up) as [up'|] eqn:E; [|discriminate].
      injection H as <-. destruct (IH _ _ E) as [Sz Wl]. simpl. lia.
Qed.

(** ** Panics *)

Lemma panic_free_not_crashed {T} (p : chain T) :
  panic_free p = true -> crashed p = false.
Proof.
  induction p as [T w ch | T A up IH body w ch]; simpl.
  - destruct w; simpl; auto; discriminate.
  - rewrite andb_true_iff. intros [Cw Pu]. rewrite (IH Pu).
    destruct w; simpl in *; auto; discriminate.
Qed.

Lemma work_panic_free {T} (p : chain T) :
  forall i p', work i p = Some p' -> wf p ->
  panic_free p = true -> panic_free p' = true.
Proof.
  unfold wf.
  induction p as [T w ch | T A up IH body w ch]; intros i p' H W PF.
  - destruct i; simpl in H; [|discriminate].
    destruct (origin_step w ch) as [[w' ch']|] eqn:E; [|discriminate].
    injection H as <-. simpl in *. chan_ok_hyps.
    destruct w as [[v k| |]|b| |]; simpl in *; try discriminate.
    + apply chan_send_inv in E.
      destruct E as [(C & _) | (C & L & -> & ->)]; [congruence|]. exact PF.
    + injection E as <- <-. reflexivity.
    + rewrite deferred_close_open in E by assumption.
      injection E as <- <-. destruct b; auto.
  - simpl in W. apply andb_true_iff in W. destruct W as [W P].
    apply andb_true_iff in W. destruct W as [W Wup].
    simpl in PF. apply andb_true_iff in PF. destruct PF as [Cw PFu].
    destruct i as [|j]; simpl in H.
    + pose proof (chan_ok_inv _ _ W) as (K0 & K1 & K2).
      destruct w as [[|v]|b| |]; simpl in H; try discriminate.
      * destruct (recv up) as [[[x|] up']|] eqn:R; [| |discriminate].
        -- pose proof (recv_got_panic_free _ R PFu) as PFu'.
           destruct (body x) as [y|]; injection H as <-; simpl;
             rewrite PFu'; reflexivity.
        -- injection H as <-. destruct (recv_eof_inv _ R) as [-> D].
           simpl. exact PFu.
      * destruct (chan_send v AtRange ch) as [[w' ch']|] eqn:S; [|discriminate].
        injection H as <-. apply chan_send_inv in S. simpl in K2.
        destruct S as [(C & _) | (C & L & -> & ->)]; [congruence|].
        simpl. exact PFu.
      * simpl in K2. rewrite deferred_close_open in H by assumption.
        injection H as <-. simpl in *. rewrite PFu.
        destruct b; simpl in *; auto.
    + destruct (work j up) as [up'|] eqn:E; [|discriminate].
      injection H as <-. simpl. rewrite Cw, (IH _ _ E Wup PFu). reflexivity.
Qed.

(** ** Progress *)

(** In a chain that obeys the protocol, as long as the program is alive, a
    receiver at the end obtains something, or some goroutine can take a
    step. *)
Lemma chain_progress {T} (p : chain T) :
  wf p -> crashed p = false ->
  (exists r p', recv p = Some (r, p')) \/ (exists i p', work i p = Some p').
Proof.
  unfold wf.
  induction p as [T w ch | T A up IH body w ch]; intros W PF.
  - simpl in W. apply chan_ok_inv in W. destruct W as (K0 & K1 & K2).
    simpl. unfold chan_recv.
    destruct (buf ch) as [|x rest] eqn:B; [|left; simpl; eauto].
    destruct (closed ch) eqn:C; [left; simpl; eauto|].
    destruct w as [[v k| |]|b| |]; simpl in *; try discriminate.
    + destruct (cap ch =? 0) eqn:Z0; [left; simpl; eauto|].
      right. exists 0%nat. simpl. unfold chan_send. rewrite C, B. simpl.
      apply Z.eqb_neq in Z0.
      destruct (0 <? cap ch) eqn:L; [eauto|]. apply Z.ltb_ge in L. lia.
    + right. exists 0%nat. simpl. eauto.
    + right. exists 0%nat. simpl. eauto.
    + right. exists 0%nat. simpl.
      destruct (deferred_close b ch) as [w' ch']. eauto.
  - simpl in W. apply andb_true_iff in W. destruct W as [W P].
    apply andb_true_iff in W. destruct W as [W Wup].
    simpl in PF. apply orb_false_iff in PF. destruct PF as [Cw PFu].
    apply chan_ok_inv in W. destruct W as (K0 & K1 & K2).
    simpl. unfold chan_recv.
    destruct (buf ch) as [|x rest] eqn:B; [|left; simpl; eauto].
    destruct (closed ch) eqn:C; [left; simpl; eauto|].
    destruct w as [[|v]|b| |]; simpl in *; try discriminate.
    + right. destruct (IH Wup PFu) as [(r & up' & R) | (j & up' & E)].
      * exists 0%nat. simpl. rewrite R.
        destruct r as [x|]; [destruct (body x)|]; eauto.
      * exists (S j). simpl. rewrite E. eauto.
    + destruct (cap ch =? 0) eqn:Z0; [left; simpl; eauto|].
      right. exists 0%nat. simpl. unfold chan_send. rewrite C, B. simpl.
      apply Z.eqb_neq in Z0.
      destruct (0 <? cap ch) eqn:L; [eauto|]. apply Z.ltb_ge in L. lia.
    + right. exists 0%nat. simpl.
      destruct (deferred_close b ch) as [w' ch']. eauto.
Qed.

(** ** Calls of [ToSlice] *)

Lemma ToSlice_call_ok {T} (p : chain T) :
  wf p -> call_ok (contents p) (ToSlice p).
Proof.
  intros W. split; [exact W|]. exists []. simpl.
  repeat split; auto. discriminate.
Qed.

Lemma step_call_ok {T} (l : list T) (s s' : call T) :
  call_ok l s -> step s s' -> call_ok l s'.
Proof.
  intros (W & pre & Hr & Hl & Hd) [a H]. unfold step_at in H.
  destruct (crashed (upstream s)); [discriminate|].
  destruct a as [|i].
  - unfold caller_step in H. destruct (returned s); [discriminate|].
    destruct (recv (upstream s)) as [[[v|] p']|] eqn:R; [| |discriminate];
      injection H as <-; simpl.
    + split; [exact (recv_got_wf R W)|]. exists (pre ++ [v]).
      rewrite Hr, append_gather, <- app_assoc. simpl.
      rewrite <- (recv_got_contents _ R). repeat split; auto. discriminate.
    + destruct (recv_eof_inv _ R) as [-> D]. split; [exact W|].
      exists pre. repeat split; auto.
  - unfold worker_step in H.
    destruct (work i (upstream s)) as [p'|] eqn:E; [|discriminate].
    injection H as <-. simpl.
    destruct (@work_sound _ _ _ _ E W) as (W' & Cn & _ & Dp).
    split; [exact W'|]. exists pre. simpl in *. rewrite Cn. auto.
Qed.

Lemma steps_call_ok {T} (l : list T) (n : nat) (s s' : call T) :
  steps n s s' -> call_ok l s -> call_ok l s'.
Proof.
  induction 1 as [|n s s1 s2 H1 _ IH]; intros K; auto.
  apply IH. exact (step_call_ok K H1).
Qed.

Lemma call_ok_result {T} (l : list T) (s : call T) :
  call_ok l s -> returned s = true -> result s = gather l.
Proof.
  intros (W & pre & Hr & Hl & Hd) R. rewrite Hr. f_equal.
  rewrite <- Hl, (drained_contents W (Hd R)), app_nil_r. reflexivity.
Qed.

Lemma step_measure {T} (s s' : call T) :
  step s s' -> (steps_left s' < steps_left s)%nat.
Proof.
  intros [a H]. unfold step_at in H.
  destruct (crashed (upstream s)); [discriminate|].
  unfold steps_left. destruct a as [|i].
  - unfold caller_step in H. destruct (returned s); [discriminate|].
    destruct (recv (upstream s)) as [[[v|] p']|] eqn:R; [| |discriminate];
      injection H as <-; simpl.
    + pose proof (recv_got_size _ R). pose proof (recv_got_work_left _ R). lia.
    + destruct (recv_eof_inv _ R) as [-> D]. lia.
  - unfold worker_step in H.
    destruct (work i (upstream s)) as [p'|] eqn:E; [|discriminate].
    injection H as <-. simpl. destruct (@work_measure _ _ _ _ E). lia.
Qed.

Lemma steps_bound {T} (n : nat) (s s' : call T) :
  steps n s s' -> (n + steps_left s' <= steps_left s)%nat.
Proof.
  induction 1 as [|n s s1 s2 H1 _ IH]; [lia|].
  apply step_measure in H1. lia.
Qed.

Lemma step_panic_free {T} (s s' : call T) :
  step s s' -> wf (upstream s) -> panic_free (upstream s) = true ->
  panic_free (upstream s') = true.
Proof.
  intros [a H] W PF. unfold step_at in H.
  destruct (crashed (upstream s)); [discriminate|].
  destruct a as [|i].
  - unfold caller_step in H. destruct (returned s); [discriminate|].
    destruct (recv (upstream s)) as [[[v|] p']|] eqn:R; [| |discriminate];
      injection H as <-; simpl.
    + exact (recv_got_panic_free _ R PF).
    + destruct (recv_eof_inv _ R) as [-> D]. exact PF.
  - unfold worker_step in H.
    destruct (work i (upstream s)) as [p'|] eqn:E; [|discriminate].
    injection H as <-. simpl. exact (@work_panic_free _ _ _ _ E W PF).
Qed.

Lemma steps_panic_free {T} (l : list T) (n : nat) (s s' : call T) :
  steps n s s' -> call_ok l s -> panic_free (upstream s) = true ->
  panic_free (upstream s') = true.
Proof.
  induction 1 as [|n s s1 s2 H1 _ IH]; intros K PF; auto.
  apply IH; [exact (step_call_ok K H1)|].
  destruct K as [W _]. exact (step_panic_free H1 W PF).
Qed.

Lemma call_progress {T} (s : call T) :
  wf (upstream s) -> crashed (upstream s) = false ->
  returned s = false -> exists s', step s s'.
Proof.
  intros W PF R.
  destruct (chain_progress W PF) as [(r & p' & E) | (i & p' & E)].
  - destruct r as [v|].
    + exists (mk_call p' (append (result s) v) false), Caller.
      unfold step_at, caller_step. rewrite PF, R, E. reflexivity.
    + exists (mk_call p' (result s) true), Caller.
      unfold step_at, caller_step. rewrite PF, R, E. reflexivity.
  - exists (mk_call p' (result s) (returned s)), (Worker i).
    unfold step_at, worker_step. rewrite PF, E. reflexivity.
Qed.

(** Whatever the schedule, [ToSlice] returns the values the chain had to
    deliver, in order, and the nil slice when there were none. *)
Lemma ToSlice_returns {T} (p : chain T) :
  wf p -> panic_free p = true ->
  always_returns (ToSlice p) (gather (contents p)).
Proof.
  intros W PF. pose proof (ToSlice_call_ok W) as K. repeat split.
  - intros s [n Hn] R. apply call_progress; auto.
    + exact (proj1 (steps_call_ok Hn K)).
    + apply panic_free_not_crashed. exact (steps_panic_free Hn K PF).
  - exists (steps_left (ToSlice p)). intros n s Hn.
    pose proof (steps_bound Hn). lia.
  - intros s [n Hn] R. exact (call_ok_result (steps_call_ok Hn K) R).
Qed.

(** Without any assumption on panics: if the call returns, it returns the
    values the chain had to deliver. *)
Lemma ToSlice_partial {T} (p : chain T) (s : call T) :
  wf p -> reachable (ToSlice p) s -> returned s = true ->
  result s = gather (contents p).
Proof.
  intros W [n Hn] R.
  exact (call_ok_result (steps_call_ok Hn (ToSlice_call_ok W)) R).
Qed.

(** A call that returns under every schedule has one value to return. *)
Lemma always_returns_unique {T} (s0 : call T) (r1 r2 : slice T) :
  always_returns s0 r1 -> always_returns s0 r2 -> r1 = r2.
Proof.
  intros (P1 & (b & B1) & R1) (_ & _ & R2).
  assert (E : forall k n s, steps n s0 s -> (b - n <= k)%nat ->
              exists s', reachable s0 s' /\ returned s' = true).
  { induction k as [|k IH]; intros n s Hn Hk.
    - destruct (returned s) eqn:R; [exists s; split; [exists n|]; auto|].
      destruct (P1 s (ex_intro _ n Hn) R) as [s' Hs'].
      assert (Hn' : steps (S n) s0 s').
      { clear - Hn Hs'. induction Hn; econstructor; eauto. constructor. }
      apply B1 in Hn'. pose proof (B1 _ _ Hn). lia.
    - destruct (returned s) eqn:R; [exists s; split; [exists n|]; auto|].
      destruct (P1 s (ex_intro _ n Hn) R) as [s' Hs'].
      assert (Hn' : steps (S n) s0 s').
      { clear - Hn Hs'. induction Hn; econstructor; eauto. constructor. }
      apply (IH _ _ Hn'). lia. }
  destruct (E b O s0 (steps_O s0)) as (s & Hs & R); [lia|].
  rewrite <- (R1 s Hs R), <- (R2 s Hs R). reflexivity.
Qed.

(** ** Runs under a given schedule *)

Lemma run_reachable {T} (sched : list actor) (s : call T) :
  reachable s (run sched s).
Proof.
  revert s. induction sched as [|a rest IH]; intros s; simpl.
  - exists O. constructor.
  - destruct (step_at a s) as [s'|] eqn:E; [|apply IH].
    destruct (IH s') as [n Hn]. exists (S n).
    apply steps_S with (s' := s'); [exists a; exact E | exact Hn].
Qed.

(** Source [1,2,3,4], filter even, transform double, drain: [4,8]. *)
Example scenario_filter_then_double :
  let s := rounds 12
             (ToSlice (stream (Streams.Pipe (fun x : Z => dyn TInt (2 * x))
                (Streams.Filter Z.even
                   (Streams.Streamify (mk_slice [1; 2; 3; 4])))))) in
  (result s, returned s) = (mk_slice [dyn TInt 4; dyn TInt 8], true).
Proof. reflexivity. Qed.

(** A generator sends 1..5 into a bounded pipeline of capacity 2. *)
Example scenario_generator_capacity_2 :
  option_map (fun b => let s := rounds 8 (ToSlice (bstream b)) in
                       (result s, returned s))
             (BufferedStreams.CreateBufferedStream (feed [1; 2; 3; 4; 5]) 2)
  = Some (mk_slice [1; 2; 3; 4; 5], true).
Proof. reflexivity. Qed.

(** Nobody receives: the goroutine buffers two values and stays there. *)
Example scenario_producer_blocks :
  option_map (fun b => upstream (run (repeat (Worker 0) 6) (ToSlice (bstream b))))
             (BufferedStreams.CreateBufferedStream (feed [1; 2; 3; 4; 5]) 2)
  = Some (Origin (Running (feed [3; 4; 5])) (mk_chan [1; 2] 2 false)).
Proof. reflexivity. Qed.

(** A generator that sends one value and panics. *)
Example scenario_generator_panics :
  upstream (rounds 4 (ToSlice (stream (Streams.CreateStream (GSend 7 GPanic)))))
  = Origin Crashed (mk_chan [] 0 true).
Proof. reflexivity. Qed.

(** A negative size: [make] panics. *)
Example scenario_negative_size :
  BufferedStreams.StreamifyWithBuffer (mk_slice [1; 2]) (-1) = None.
Proof. reflexivity. Qed.

(** ** The constructors of the package obey the protocol *)

Lemma wf_spawn_origin {T} (g : genprog T) (c : Z) :
  0 <= c -> wf (spawn_origin g (mk_chan [] c false)).
Proof.
  intros H. unfold wf. simpl. apply chan_ok_intro; simpl; auto.
Qed.

Lemma wf_spawn_stage {A T} (up : chain A) (body : A -> option T) (c : Z) :
  0 <= c -> wf up -> wf (spawn_stage up body (mk_chan [] c false)).
Proof.
  unfold wf. intros H W. simpl. rewrite W, !andb_true_r.
  apply chan_ok_intro; simpl; auto.
Qed.

Lemma panic_free_spawn_origin {T} (g : genprog T) (ch : chan T) :
  gen_panics g = false -> panic_free (spawn_origin g ch) = true.
Proof. simpl. intros ->. reflexivity. Qed.

Lemma panic_free_spawn_stage {A T} (up : chain A) (body : A -> option T)
    (ch : chan T) :
  panic_free up = true -> panic_free (spawn_stage up body ch) = true.
Proof. simpl. auto. Qed.

Lemma len_gather {T} (l : list T) : len (gather l) = Z.of_nat (length l).
Proof. unfold len. rewrite gather_elems. reflexivity. Qed.

Lemma wf_Streamify {T} (S : slice T) : wf (stream (Streams.Streamify S)).
Proof. apply wf_spawn_origin. lia. Qed.

Lemma wf_CreateStream {T} (g : genprog T) : wf (stream (Streams.CreateStream g)).
Proof. apply wf_spawn_origin. lia. Qed.

Lemma StreamifyWithBuffer_some {T} (S : slice T) (C : Z) :
  0 <= C ->
  BufferedStreams.StreamifyWithBuffer S C
  = Some (mk_bufferedStream
            (spawn_origin (feed (elems S)) (mk_chan [] C false)) C).
Proof.
  intros H. unfold BufferedStreams.StreamifyWithBuffer.
  rewrite (make_chan_some _ H). reflexivity.
Qed.

Lemma CreateBufferedStream_some {T} (g : genprog T) (C : Z) :
  0 <= C ->
  BufferedStreams.CreateBufferedStream g C
  = Some (mk_bufferedStream (spawn_origin g (mk_chan [] C false)) C).
Proof.
  intros H. unfold BufferedStreams.CreateBufferedStream.
  rewrite (make_chan_some _ H). reflexivity.
Qed.

Lemma ToSlice_returns_list {T} (p : chain T) (l : list T) :
  wf p -> panic_free p = true -> contents p = l ->
  always_returns (ToSlice p) (gather l).
Proof. intros W PF <-. apply ToSlice_returns; assumption. Qed.

(** ** Transform *)

(** C1. Draining [Pipe f] of a stream built from the slice [S] returns, under
    every schedule, the elements [map f S]: as many as [S] has, each the
    image of the source element at its place. For [streams.go], and for
    [bufferedStreams.go] at any capacity [C]. *)
Theorem C1_Pipe_ToSlice_is_map {T} (S : slice T) (f : T -> any) (C : Z)
    (HC : 0 <= C) :
  let r := gather (map f (elems S)) in
  elems r = map f (elems S) /\ len r = len S
  /\ always_returns (ToSlice (stream (Streams.Pipe f (Streams.Streamify S)))) r
  /\ exists b b',
       BufferedStreams.StreamifyWithBuffer S C = Some b
       /\ BufferedStreams.Pipe f b = Some b'
       /\ always_returns (ToSlice (bstream b')) r.
Proof.
  intros r. subst r. split; [apply gather_elems|].
  split; [rewrite len_gather, length_map; reflexivity|]. split.
  - apply ToSlice_returns_list.
    + apply wf_spawn_stage; [lia | apply wf_Streamify].
    + apply panic_free_spawn_stage, panic_free_spawn_origin, gen_panics_feed.
    + simpl. rewrite gen_sends_feed. apply forward_pipe.
  - rewrite (StreamifyWithBuffer_some _ HC).
    eexists. eexists. split; [reflexivity|].
    unfold BufferedStreams.Pipe. simpl. rewrite (make_chan_some _ HC).
    split; [reflexivity|]. simpl.
    apply ToSlice_returns_list.
    + apply wf_spawn_stage; [lia | apply wf_spawn_origin; lia].
    + apply panic_free_spawn_stage, panic_free_spawn_origin, gen_panics_feed.
    + simpl. rewrite gen_sends_feed. apply forward_pipe.
Qed.

Lemma C1_witness :
  0 <= 2
  /\ always_returns
       (ToSlice (stream (Streams.Pipe (fun x : Z => dyn TInt (2 * x))
                           (Streams.Streamify (mk_slice [1; 2; 3])))))
       (mk_slice [dyn TInt 2; dyn TInt 4; dyn TInt 6]).
Proof.
  split; [lia|].
  apply (@C1_Pipe_ToSlice_is_map Z (mk_slice [1; 2; 3])
           (fun x : Z => dyn TInt (2 * x)) 2).
  lia.
Defined.

(** ** Filter *)

(** C2. Draining [Filter pred] of a stream built from the slice [S] returns,
    under every schedule, the elements of [S] that satisfy [pred], in their
    order in [S]; their number is the number of such elements and at most
    the length of [S]. For [streams.go], and for [bufferedStreams.go] at
    any capacity [C]. *)
Theorem C2_Filter_ToSlice_is_filter {T} (S : slice T) (pred : T -> bool)
    (C : Z) (HC : 0 <= C) :
  let r := gather (filter pred (elems S)) in
  elems r = filter pred (elems S)
  /\ len r = Z.of_nat (length (filter pred (elems S)))
  /\ len r <= len S
  /\ always_returns
       (ToSlice (stream (Streams.Filter pred (Streams.Streamify S)))) r
  /\ exists b b',
       BufferedStreams.StreamifyWithBuffer S C = Some b
       /\ BufferedStreams.Filter pred b = Some b'
       /\ always_returns (ToSlice (bstream b')) r.
Proof.
  intros r. subst r. split; [apply gather_elems|].
  split; [apply len_gather|].
  split; [rewrite len_gather; unfold len; apply inj_le, filter_length_le|].
  split.
  - apply ToSlice_returns_list.
    + apply wf_spawn_stage; [lia | apply wf_Streamify].
    + apply panic_free_spawn_stage, panic_free_spawn_origin, gen_panics_feed.
    + simpl. rewrite gen_sends_feed. apply forward_filter.
  - rewrite (StreamifyWithBuffer_some _ HC).
    eexists. eexists. split; [reflexivity|].
    unfold BufferedStreams.Filter. simpl. rewrite (make_chan_some _ HC).
    split; [reflexivity|]. simpl.
    apply ToSlice_returns_list.
    + apply wf_spawn_stage; [lia | apply wf_spawn_origin; lia].
    + apply panic_free_spawn_stage, panic_free_spawn_origin, gen_panics_feed.
    + simpl. rewrite gen_sends_feed. apply forward_filter.
Qed.

Lemma C2_witness :
  0 <= 2
  /\ always_returns
       (ToSlice (stream (Streams.Filter Z.even
                           (Streams.Streamify (mk_slice [1; 2; 3; 4])))))
       (mk_slice [2; 4]).
Proof.
  split; [lia|].
  apply (@C2_Filter_ToSlice_is_filter Z (mk_slice [1; 2; 3; 4]) Z.even 2).
  lia.
Defined.

(** ** Conversions *)

(** C3. For a bounded pipeline [P] that obeys the protocol and a capacity
    [C], the pipeline
    [ToBufferedStream(C)] of [ToStream()] of [P] exists, has the same
    elements to deliver as [P], and whatever a drain of the one returns a
    drain of the other returns; when nothing in [P] panics, both drains
    return, under every schedule, the same slice. *)
Theorem C3_round_trip {T} (P : bufferedStream T) (C : Z)
    (HC : 0 <= C) (HP : wf (bstream P)) :
  exists Q,
    Streams.ToBufferedStream (BufferedStreams.ToStream P) C = Some Q
    /\ contents (bstream Q) = contents (bstream P)
    /\ (forall s s',
          reachable (ToSlice (bstream P)) s -> returned s = true ->
          reachable (ToSlice (bstream Q)) s' -> returned s' = true ->
          result s' = result s)
    /\ (panic_free (bstream P) = true ->
        exists r,
          always_returns (ToSlice (bstream P)) r
          /\ always_returns (ToSlice (bstream Q)) r).
Proof.
  unfold Streams.ToBufferedStream. rewrite (make_chan_some _ HC).
  eexists. split; [reflexivity|]. simpl.
  set (Q := spawn_stage (spawn_stage (bstream P) relay_body (make_unbuffered T))
                        relay_body (mk_chan [] C false)).
  assert (WQ : wf Q).
  { apply wf_spawn_stage; [lia|]. apply wf_spawn_stage; [lia | exact HP]. }
  assert (CQ : contents Q = contents (bstream P)).
  { unfold Q. simpl. rewrite !forward_relay. reflexivity. }
  split; [exact CQ|]. split.
  - intros s s' Hs Rs Hs' Rs'.
    rewrite (ToSlice_partial HP Hs Rs), (ToSlice_partial WQ Hs' Rs'), CQ.
    reflexivity.
  - intros PF. exists (gather (contents (bstream P))). split.
    + apply ToSlice_returns; assumption.
    + apply ToSlice_returns_list; auto.
Qed.

Lemma C3_witness :
  0 <= 3
  /\ exists P Q,
       BufferedStreams.StreamifyWithBuffer (mk_slice [1; 2; 3; 4]) 2 = Some P
       /\ Streams.ToBufferedStream (BufferedStreams.ToStream P) 3 = Some Q
       /\ contents (bstream Q) = [1; 2; 3; 4].
Proof.
  split; [lia|].
  exists (mk_bufferedStream
            (spawn_origin (feed [1; 2; 3; 4]) (mk_chan [] 2 false)) 2).
  destruct (@C3_round_trip Z
              (mk_bufferedStream
                 (spawn_origin (feed [1; 2; 3; 4]) (mk_chan [] 2 false)) 2)
              3 ltac:(lia) eq_refl) as (Q & HQ & HC & _).
  exists Q. split; [reflexivity|]. split; [exact HQ | exact HC].
Defined.

(** ** Recast *)

(** C5. For a pipeline of [any] that obeys the protocol and does not panic,
    recasting to the type [t] returns, under every schedule, the values of
    those of its elements whose dynamic type is [t], in their order; the
    others are dropped, and no run of the drain reaches a panic. For
    [RecastStream] and for [RecastBufferedStream]. *)
Theorem C5_recast_keeps_matching (t : gotype) (s : streamable any)
    (b : bufferedStream any)
    (Ws : wf (stream s)) (Ps : panic_free (stream s) = true)
    (Wb : wf (bstream b)) (Pb : panic_free (bstream b) = true)
    (HC : 0 <= BufferSize b) :
  (exists r,
     always_returns (ToSlice (stream (Streams.RecastStream t s))) r
     /\ map (dyn t) (elems r) = filter (has_type t) (contents (stream s))
     /\ forall s', reachable (ToSlice (stream (Streams.RecastStream t s))) s' ->
                   crashed (upstream s') = false)
  /\ (exists b' r,
        BufferedStreams.RecastBufferedStream t b = Some b'
        /\ always_returns (ToSlice (bstream b')) r
        /\ map (dyn t) (elems r) = filter (has_type t) (contents (bstream b))
        /\ forall s', reachable (ToSlice (bstream b')) s' ->
                      crashed (upstream s') = false).
Proof.
  split.
  - exists (gather (forward (recast_body t) (contents (stream s)))).
    assert (W : wf (stream (Streams.RecastStream t s))).
    { apply wf_spawn_stage; [lia | exact Ws]. }
    assert (PF : panic_free (stream (Streams.RecastStream t s)) = true).
    { apply panic_free_spawn_stage. exact Ps. }
    split; [apply ToSlice_returns_list; auto|].
    split; [rewrite gather_elems; apply forward_recast|].
    intros s' [n Hn]. apply panic_free_not_crashed.
    exact (steps_panic_free Hn (ToSlice_call_ok W) PF).
  - unfold BufferedStreams.RecastBufferedStream.
    rewrite (make_chan_some _ HC). eexists.
    exists (gather (forward (recast_body t) (contents (bstream b)))).
    split; [reflexivity|]. simpl.
    set (Q := spawn_stage (bstream b) (recast_body t)
                          (mk_chan [] (BufferSize b) false)).
    assert (W : wf Q) by (apply wf_spawn_stage; assumption).
    assert (PF : panic_free Q = true) by (apply panic_free_spawn_stage; exact Pb).
    split; [apply ToSlice_returns_list; auto|].
    split; [rewrite gather_elems; apply forward_recast|].
    intros s' [n Hn]. apply panic_free_not_crashed.
    exact (steps_panic_free Hn (ToSlice_call_ok W) PF).
Qed.

Lemma C5_witness :
  0 <= 2
  /\ exists r,
       always_returns
         (ToSlice (stream (Streams.RecastStream TInt
            (Streams.Streamify
               (mk_slice [dyn TInt 1; dyn TString "a"%string; nil_any;
                          dyn TInt 2; dyn TBool true])))))
         r
       /\ map (dyn TInt) (elems r) = [dyn TInt 1; dyn TInt 2].
Proof.
  split; [lia|].
  destruct (@C5_recast_keeps_matching TInt
              (Streams.Streamify
                 (mk_slice [dyn TInt 1; dyn TString "a"%string; nil_any;
                            dyn TInt 2; dyn TBool true]))
              (mk_bufferedStream
                 (spawn_origin (feed [dyn TInt 1; dyn TString "a"%string])
                               (mk_chan [] 2 false)) 2)
              eq_refl eq_refl eq_refl eq_refl ltac:(simpl; lia))
    as [(r & Hr & He & _) _].
  exists r. split; [exact Hr | exact He].
Defined.

(** ** Empty sources *)

(** C4, as amended. Draining a pipeline built from a slice without
    elements, or from a generator that returns without sending, returns
    under every schedule the nil slice: it has length zero and it is nil.
    For [streams.go] and for [bufferedStreams.go]. *)
Theorem C4_empty_source_returns_nil {T} (S : slice T) (g : genprog T) (C : Z)
    (HS : elems S = []) (Hg : gen_sends g = []) (Hp : gen_panics g = false)
    (HC : 0 <= C) :
  len (@nil_slice T) = 0 /\ is_nil (@nil_slice T) = true
  /\ always_returns (ToSlice (stream (Streams.Streamify S))) nil_slice
  /\ always_returns (ToSlice (stream (Streams.CreateStream g))) nil_slice
  /\ (exists b, BufferedStreams.StreamifyWithBuffer S C = Some b
                /\ always_returns (ToSlice (bstream b)) nil_slice)
  /\ (exists b, BufferedStreams.CreateBufferedStream g C = Some b
                /\ always_returns (ToSlice (bstream b)) nil_slice).
Proof.
  split; [reflexivity|]. split; [reflexivity|].
  change (@nil_slice T) with (gather (@nil T)).
  split; [|split; [|split]].
  - apply ToSlice_returns_list.
    + apply wf_Streamify.
    + apply panic_free_spawn_origin, gen_panics_feed.
    + simpl. rewrite gen_sends_feed. exact HS.
  - apply ToSlice_returns_list.
    + apply wf_CreateStream.
    + apply panic_free_spawn_origin. exact Hp.
    + simpl. exact Hg.
  - rewrite (StreamifyWithBuffer_some _ HC). eexists. split; [reflexivity|].
    apply ToSlice_returns_list.
    + apply wf_spawn_origin. exact HC.
    + apply panic_free_spawn_origin, gen_panics_feed.
    + simpl. rewrite gen_sends_feed. exact HS.
  - rewrite (CreateBufferedStream_some _ HC). eexists. split; [reflexivity|].
    apply ToSlice_returns_list.
    + apply wf_spawn_origin. exact HC.
    + apply panic_free_spawn_origin. exact Hp.
    + simpl. exact Hg.
Qed.

Lemma C4_witness :
  (elems (mk_slice (@nil Z)) = [] /\ gen_sends (@GReturn Z) = []
   /\ gen_panics (@GReturn Z) = false /\ 0 <= 4)
  /\ always_returns
       (ToSlice (stream (Streams.Streamify (mk_slice (@nil Z))))) nil_slice
  /\ always_returns
       (ToSlice (stream (Streams.CreateStream (@GReturn Z)))) nil_slice.
Proof.
  split; [repeat split; lia|].
  destruct (@C4_empty_source_returns_nil Z (mk_slice []) GReturn 4
              eq_refl eq_refl eq_refl ltac:(lia)) as (_ & _ & H1 & H2 & _).
  split; [exact H1 | exact H2].
Defined.

(** C4, as stated, fails: drained from the empty slice of integers,
    [ToSlice] returns nil. *)
Lemma C4_counterexample :
  ~ (forall r,
       always_returns
         (ToSlice (stream (Streams.Streamify (mk_slice (@nil Z))))) r ->
       is_nil r = false).
Proof.
  intros H.
  assert (R : always_returns
                (ToSlice (stream (Streams.Streamify (mk_slice (@nil Z)))))
                (gather [])).
  { apply ToSlice_returns_list; reflexivity. }
  apply H in R. discriminate R.
Qed.

(** ** Sub-ranges of an iterable *)

Lemma nth_reslice {T} (l : list T) (a n i : nat) (d : T) :
  (i < n)%nat ->
  nth i (firstn n (skipn a l)) d = nth (a + i) l d.
Proof.
  intros H. rewrite nth_firstn.
  destruct (i <? n)%nat eqn:E; [|apply Nat.ltb_ge in E; lia].
  apply nth_skipn.
Qed.

(** C6. [Slice(start, end)] with [start > end], [start < 0] or
    [end > len] returns an empty iterable and does not panic; with
    [0 <= start <= end <= len] it returns [items[start:end]], the
    [end - start] elements from index [start] on. *)
Theorem C6_Slice_range {T} (c : iterable T) (start end_ : Z) :
  (start > end_ \/ start < 0 \/ end_ > len (items c) ->
   Slices.Slice c start end_ = Some (mk_iterable (mk_slice [])))
  /\ (0 <= start /\ start <= end_ /\ end_ <= len (items c) ->
      exists r,
        Slices.Slice c start end_ = Some r
        /\ reslice (items c) start end_ = Some (items r)
        /\ len (items r) = end_ - start
        /\ forall i d, 0 <= i < end_ - start ->
             nth (Z.to_nat i) (elems (items r)) d
             = nth (Z.to_nat (start + i)) (elems (items c)) d).
Proof.
  unfold Slices.Slice, reslice. split.
  - intros H.
    destruct ((start <? 0) || (end_ >? len (items c)) || (start >? end_)) eqn:E;
      [reflexivity|].
    rewrite !orb_false_iff, Z.ltb_ge, !Z.gtb_ltb, !Z.ltb_ge in E. lia.
  - intros (H0 & H1 & H2).
    destruct ((start <? 0) || (end_ >? len (items c)) || (start >? end_)) eqn:E.
    { rewrite !orb_true_iff, Z.ltb_lt, !Z.gtb_ltb, !Z.ltb_lt in E. lia. }
    destruct ((0 <=? start) && (start <=? end_) && (end_ <=? len (items c)))
      eqn:E2.
    2:{ rewrite !andb_false_iff, !Z.leb_gt in E2. lia. }
    destruct c as [[|l]]; simpl in *.
    + unfold len in *. simpl in *. eexists. split; [reflexivity|].
      split; [reflexivity|]. split; [simpl; lia|]. intros i d Hi. lia.
    + unfold len in *. simpl in *. eexists. split; [reflexivity|].
      split; [reflexivity|]. simpl. split.
      * rewrite length_firstn, length_skipn. lia.
      * intros i d Hi. rewrite nth_reslice by lia. f_equal. lia.
Qed.

Lemma C6_witness :
  (5 > 3 \/ 5 < 0 \/ 3 > len (mk_slice [10; 20; 30; 40]))
  /\ Slices.Slice (mk_iterable (mk_slice [10; 20; 30; 40])) 5 3
     = Some (mk_iterable (mk_slice []))
  /\ (0 <= 1 /\ 1 <= 3 /\ 3 <= len (mk_slice [10; 20; 30; 40]))
  /\ exists r,
       Slices.Slice (mk_iterable (mk_slice [10; 20; 30; 40])) 1 3 = Some r
       /\ len (items r) = 3 - 1.
Proof.
  split; [left; lia|].
  split; [apply (proj1 (@C6_Slice_range Z
                          (mk_iterable (mk_slice [10; 20; 30; 40])) 5 3));
          left; lia|].
  split; [unfold len; simpl; lia|].
  destruct (proj2 (@C6_Slice_range Z
                     (mk_iterable (mk_slice [10; 20; 30; 40])) 1 3))
    as (r & Hr & _ & Hl & _); [unfold len; simpl; lia|].
  exists r. split; [exact Hr | exact Hl].
Defined.

(** ** Capacities *)

(** On a [bufferedStream] whose field [BufferSize] is [C], each of [Pipe],
    [Filter] and [RecastBufferedStream] returns a pipeline on a channel
    made with capacity [C], empty and open, and whose [BufferSize] is [C]:
    the stages go by the field, not by the capacity of the channel they
    read. *)
Lemma stages_use_BufferSize {T} (s : bufferedStream T)
    (sa : bufferedStream any) (fn : T -> any) (pred : T -> bool) (t : gotype)
    (C : Z) (HC : 0 <= C) (Hs : BufferSize s = C) (Hsa : BufferSize sa = C) :
  (exists p, BufferedStreams.Pipe fn s = Some p
             /\ out (bstream p) = mk_chan [] C false /\ BufferSize p = C)
  /\ (exists p, BufferedStreams.Filter pred s = Some p
                /\ out (bstream p) = mk_chan [] C false /\ BufferSize p = C)
  /\ (exists p, BufferedStreams.RecastBufferedStream t sa = Some p
                /\ out (bstream p) = mk_chan [] C false /\ BufferSize p = C).
Proof.
  unfold BufferedStreams.Pipe, BufferedStreams.Filter,
    BufferedStreams.RecastBufferedStream.
  rewrite Hs, Hsa, !(make_chan_some _ HC).
  repeat split; eexists; repeat split.
Qed.

(** C9. The code at a bounded pipeline of capacity 8. Built by
    [StreamifyWithBuffer], its field [BufferSize] is 8 and [Pipe] on it
    makes a channel of capacity 8. Built by [ToBufferedStream(8)], which
    makes the channel with capacity 8 and leaves the field out, its
    [BufferSize] is 0, and [Pipe], [Filter] and [RecastBufferedStream] on
    it each make a channel of capacity 0 with [BufferSize] 0: the capacity
    is not preserved. *)
Theorem C9_capacity_lost_after_ToBufferedStream :
  (exists b p,
     BufferedStreams.StreamifyWithBuffer (mk_slice [1; 2; 3]) 8 = Some b
     /\ cap (out (bstream b)) = 8 /\ BufferSize b = 8
     /\ BufferedStreams.Pipe (fun x : Z => dyn TInt x) b = Some p
     /\ cap (out (bstream p)) = 8 /\ BufferSize p = 8)
  /\ (exists b p1 p2,
        Streams.ToBufferedStream (Streams.Streamify (mk_slice [1; 2; 3])) 8
        = Some b
        /\ cap (out (bstream b)) = 8 /\ BufferSize b = 0
        /\ BufferedStreams.Pipe (fun x : Z => dyn TInt x) b = Some p1
        /\ cap (out (bstream p1)) = 0 /\ BufferSize p1 = 0
        /\ BufferedStreams.Filter Z.even b = Some p2
        /\ cap (out (bstream p2)) = 0 /\ BufferSize p2 = 0)
  /\ (exists b p,
        Streams.ToBufferedStream
          (Streams.Pipe (fun x : Z => dyn TInt x)
             (Streams.Streamify (mk_slice [1; 2; 3]))) 8
        = Some b
        /\ cap (out (bstream b)) = 8 /\ BufferSize b = 0
        /\ BufferedStreams.RecastBufferedStream TInt b = Some p
        /\ cap (out (bstream p)) = 0 /\ BufferSize p = 0).
Proof.
  split; [|split].
  - eexists. eexists. repeat split.
  - eexists. eexists. eexists. repeat split.
  - eexists. eexists. repeat split.
Qed.

(** C10. For a positive [n], the [bufferedStream] that [ToBufferedStream(n)]
    returns, on a [streamable] or on an [iterable], wraps a channel of
    capacity [n] but has [BufferSize] zero, so that a [Pipe] or a [Filter]
    chained on it makes a channel of capacity zero. *)
Theorem C10_ToBufferedStream_BufferSize_zero {T} (s : streamable T)
    (c : iterable T) (fn : T -> any) (pred : T -> bool) (n : Z) (Hn : 0 < n) :
  (exists b,
     Streams.ToBufferedStream s n = Some b
     /\ cap (out (bstream b)) = n /\ BufferSize b = 0
     /\ (exists p, BufferedStreams.Pipe fn b = Some p
                   /\ cap (out (bstream p)) = 0 /\ BufferSize p = 0)
     /\ (exists p, BufferedStreams.Filter pred b = Some p
                   /\ cap (out (bstream p)) = 0 /\ BufferSize p = 0))
  /\ (exists b,
        Slices.ToBufferedStream c n = Some b
        /\ cap (out (bstream b)) = n /\ BufferSize b = 0
        /\ (exists p, BufferedStreams.Pipe fn b = Some p
                      /\ cap (out (bstream p)) = 0 /\ BufferSize p = 0)
        /\ (exists p, BufferedStreams.Filter pred b = Some p
                      /\ cap (out (bstream p)) = 0 /\ BufferSize p = 0)).
Proof.
  unfold Streams.ToBufferedStream, Slices.ToBufferedStream.
  rewrite !(make_chan_some _ (Z.lt_le_incl _ _ Hn)).
  split; eexists; (split; [reflexivity|]); simpl;
    repeat split; eexists; repeat split.
Qed.

Lemma C10_witness :
  0 < 8
  /\ exists b p,
       Streams.ToBufferedStream (Streams.Streamify (mk_slice [1; 2; 3])) 8
       = Some b
       /\ cap (out (bstream b)) = 8 /\ BufferSize b = 0
       /\ BufferedStreams.Pipe (fun x : Z => dyn TInt x) b = Some p
       /\ cap (out (bstream p)) = 0.
Proof.
  split; [lia|].
  destruct (@C10_ToBufferedStream_BufferSize_zero Z
              (Streams.Streamify (mk_slice [1; 2; 3]))
              (mk_iterable (mk_slice [1; 2; 3]))
              (fun x : Z => dyn TInt x) Z.even 8 ltac:(lia))
    as [(b & Hb & Hc & Hz & (p & Hp & Hpc & _) & _) _].
  exists b, p. repeat split; assumption.
Defined.

(** ** Steps on a chain, whoever receives *)

Lemma recv_depth {T} (p p' : chain T) (r : rx T) :
  recv p = Some (r, p') -> depth p' = depth p.
Proof.
  destruct p as [w ch | A up body w ch]; simpl;
    (destruct (chan_recv _ w ch) as [[[x0 w0] ch0]|]; simpl; [|discriminate];
     intros H; injection H as _ <-; reflexivity).
Qed.

Lemma work_depth {T} (p : chain T) :
  forall i p', work i p = Some p' -> depth p' = depth p.
Proof.
  induction p as [T w ch | T A up IH body w ch]; intros i p' H.
  - destruct i; simpl in H; [|discriminate].
    destruct (origin_step w ch) as [[w' ch']|]; [|discriminate].
    injection H as <-. reflexivity.
  - destruct i as [|j]; simpl in H.
    + destruct w as [[|v]|b| |]; simpl in H; try discriminate.
      * destruct (recv up) as [[[x|] up']|] eqn:R; [| |discriminate].
        -- apply recv_depth in R.
           destruct (body x); injection H as <-; simpl; congruence.
        -- apply recv_depth in R. injection H as <-. simpl. congruence.
      * destruct (chan_send v AtRange ch) as [[w' ch']|]; [|discriminate].
        injection H as <-. reflexivity.
      * destruct (deferred_close b ch) as [w' ch'].
        injection H as <-. reflexivity.
    + destruct (work j up) as [up'|] eqn:E; [|discriminate].
      injection H as <-. simpl. rewrite (IH _ _ E). reflexivity.
Qed.

Lemma chain_step_wf {T} (p p' : chain T) :
  chain_step p p' -> wf p ->
  wf p' /\ cap (out p') = cap (out p) /\ depth p' = depth p.
Proof.
  intros [_ [[i E] | [[v|] R]]] W.
  - destruct (@work_sound _ _ _ _ E W) as (W' & _ & Cp & _).
    repeat split; auto. exact (work_depth _ _ E).
  - repeat split.
    + exact (recv_got_wf R W).
    + exact (proj1 (recv_got_cap _ R)).
    + exact (recv_depth _ R).
  - destruct (recv_eof_inv _ R) as [-> _]. auto.
Qed.

Lemma chain_steps_wf {T} (p p' : chain T) :
  chain_steps p p' -> wf p ->
  wf p' /\ cap (out p') = cap (out p) /\ depth p' = depth p.
Proof.
  induction 1 as [|p p1 p2 H1 _ IH]; intros W; [auto|].
  destruct (chain_step_wf H1 W) as (W1 & C1 & D1).
  destruct (IH W1) as (W2 & C2 & D2). repeat split; congruence.
Qed.

Lemma wf_buf_le_cap {T} (p : chain T) :
  wf p -> Z.of_nat (length (buf (out p))) <= cap (out p).
Proof.
  unfold wf. destruct p as [w ch | A up body w ch]; simpl; intros W;
    chan_ok_hyps; assumption.
Qed.

Lemma wf_closed_finished {T} (p : chain T) :
  wf p -> closed (out p) = finished (last_worker p).
Proof.
  unfold wf. destruct p as [w ch | A up body w ch]; simpl; intros W;
    chan_ok_hyps; destruct w; assumption.
Qed.

(** The deferred close runs, after a return as after a panic. *)
Lemma deferred_close_runs {T} (p : chain T) (pn : bool) :
  wf p -> last_worker p = Deferred pn ->
  exists p', work 0 p = Some p' /\ closed (out p') = true
             /\ last_worker p' = if pn then Crashed else Exited.
Proof.
  intros W L. pose proof (wf_closed_finished W) as C. rewrite L in C.
  destruct p as [w ch | A up body w ch]; simpl in L, C;
    destruct w as [c|b| |]; try discriminate;
    injection L as ->; simpl; unfold deferred_close; rewrite C;
    eexists; (split; [reflexivity|]); destruct pn; auto.
Qed.

Lemma steps_depth {T} (n : nat) (s s' : call T) :
  steps n s s' -> depth (upstream s') = depth (upstream s).
Proof.
  induction 1 as [|n s s1 s2 [a H1] _ IH]; [reflexivity|].
  rewrite IH. unfold step_at in H1.
  destruct (crashed (upstream s)); [discriminate|].
  destruct a as [|i].
  - unfold caller_step in H1. destruct (returned s); [discriminate|].
    destruct (recv (upstream s)) as [[[v|] p']|] eqn:R; [| |discriminate];
      injection H1 as <-; simpl; exact (recv_depth _ R).
  - unfold worker_step in H1.
    destruct (work i (upstream s)) as [p'|] eqn:E; [|discriminate].
    injection H1 as <-. simpl. exact (work_depth _ _ E).
Qed.

(** A call on an origin that can go no further has a closed channel. *)
Lemma stuck_closed {T} (l : list T) (s : call T) :
  call_ok l s -> depth (upstream s) = 1%nat ->
  (forall s', ~ step s s') -> closed (out (upstream s)) = true.
Proof.
  intros (W & pre & Hr & Hl & Hd) D Stuck.
  destruct (crashed (upstream s)) eqn:Cr.
  - rewrite (wf_closed_finished W).
    destruct (upstream s) as [w ch | A up body w ch]; simpl in *.
    + destruct w; simpl in *; auto; discriminate.
    + destruct up; simpl in D; discriminate.
  - destruct (returned s) eqn:R.
    + apply drained_inv in Hd; [|reflexivity]. tauto.
    + destruct (call_progress _ W Cr R) as [s' Hs']. elim (Stuck s' Hs').
Qed.

(** ** Generators that panic *)

Lemma work_doomed {T} (p p' : chain T) (i : nat) :
  work i p = Some p' -> doomed p = true -> doomed p' = true.
Proof.
  destruct p as [w ch | A up body w ch]; simpl; [|discriminate].
  destruct i; [|discriminate].
  intros H D. simpl in H.
  destruct (origin_step w ch) as [[w' ch']|] eqn:E; [|discriminate].
  injection H as <-.
  destruct w as [[v k| |]|b| |]; simpl in *; try discriminate.
  - apply andb_true_iff in D. destruct D as [P C].
    apply negb_true_iff in C. apply chan_send_inv in E.
    destruct E as [(C' & _) | (_ & _ & -> & ->)]; [congruence|].
    simpl. rewrite P, C. reflexivity.
  - injection E as <- <-. exact D.
  - destruct b; [|discriminate]. apply negb_true_iff in D.
    rewrite deferred_close_open in E by assumption.
    injection E as <- <-. reflexivity.
Qed.

Lemma recv_doomed {T} (p p' : chain T) (r : rx T) :
  recv p = Some (r, p') -> doomed p = true -> crashed p = false ->
  doomed p' = true /\ r <> Eof.
Proof.
  destruct p as [w ch | A up body w ch]; simpl; [|discriminate].
  destruct (chan_recv (gen_offer w) w ch) as [[[x0 w0] ch0]|] eqn:E;
    simpl; [|discriminate].
  intros H. injection H as -> <-. destruct r as [v|].
  - apply chan_recv_got in E.
    destruct E as [(rest & B & -> & ->) | (B & -> & C & K & Ho)].
    + intros D _. split; [|discriminate].
      destruct w as [g|[|]| |]; simpl in *; auto.
    + apply gen_offer_some in Ho. destruct Ho as (k & -> & ->).
      simpl. intros D _. split; [exact D | discriminate].
  - apply chan_recv_eof in E. destruct E as (-> & -> & B & C).
    destruct w as [g|[|]| |]; simpl; rewrite ?C, ?andb_false_r;
      discriminate.
Qed.

Lemma steps_doomed {T} (n : nat) (s s' : call T) :
  steps n s s' -> doomed (upstream s) = true -> returned s = false ->
  doomed (upstream s') = true /\ returned s' = false.
Proof.
  induction 1 as [|n s s1 s2 [a H1] _ IH]; intros D R; [auto|].
  apply IH; unfold step_at in H1;
    destruct (crashed (upstream s)) eqn:Cr; try discriminate;
    destruct a as [|i].
  - unfold caller_step in H1. rewrite R in H1.
    destruct (recv (upstream s)) as [[[v|] p']|] eqn:E; [| |discriminate];
      injection H1 as <-; simpl; exact (proj1 (recv_doomed _ E D Cr)).
  - unfold worker_step in H1.
    destruct (work i (upstream s)) as [p'|] eqn:E; [|discriminate].
    injection H1 as <-. simpl. exact (work_doomed _ _ E D).
  - unfold caller_step in H1. rewrite R in H1.
    destruct (recv (upstream s)) as [[[v|] p']|] eqn:E; [| |discriminate];
      injection H1 as <-; simpl; [reflexivity|].
    elim (proj2 (recv_doomed _ E D Cr)). reflexivity.
  - unfold worker_step in H1.
    destruct (work i (upstream s)) as [p'|] eqn:E; [|discriminate].
    injection H1 as <-. simpl. exact R.
Qed.

(** C7, as amended. In [CreateStream] and [CreateBufferedStream] the close
    of the channel is deferred, and runs when the generator returns as when
    it panics: the channel is closed exactly when the goroutine is over,
    the goroutine that has left the generator, either way, closes it with
    its next step, and a drain that can go no further has a closed channel;
    after a panic of the generator it has ended with the program. *)
Theorem C7_close_runs_on_return_and_on_panic {T} (g : genprog T) (C : Z)
    (HC : 0 <= C) :
  exists b,
    BufferedStreams.CreateBufferedStream g C = Some b
    /\ forall p0,
         p0 = stream (Streams.CreateStream g) \/ p0 = bstream b ->
         (forall p, chain_steps p0 p ->
                    closed (out p) = finished (last_worker p))
         /\ (forall p pn,
               chain_steps p0 p -> last_worker p = Deferred pn ->
               exists p', work 0 p = Some p' /\ closed (out p') = true
                          /\ last_worker p' = if pn then Crashed else Exited)
         /\ (exists bound,
               forall n s, steps n (ToSlice p0) s -> (n <= bound)%nat)
         /\ (forall s,
               reachable (ToSlice p0) s -> (forall s', ~ step s s') ->
               closed (out (upstream s)) = true)
         /\ (gen_panics g = true ->
             forall s,
               reachable (ToSlice p0) s -> (forall s', ~ step s s') ->
               crashed (upstream s) = true).
Proof.
  rewrite (CreateBufferedStream_some _ HC). eexists. split; [reflexivity|].
  intros p0 Hp0.
  assert (W0 : wf p0).
  { destruct Hp0 as [-> | ->]; apply wf_spawn_origin; lia. }
  assert (D0 : depth p0 = 1%nat) by (destruct Hp0 as [-> | ->]; reflexivity).
  assert (G0 : gen_panics g = true -> doomed p0 = true).
  { intros G. destruct Hp0 as [-> | ->]; simpl; rewrite G; reflexivity. }
  split; [|split; [|split; [|split]]].
  - intros p Hp. apply wf_closed_finished. exact (proj1 (chain_steps_wf Hp W0)).
  - intros p pn Hp L. apply deferred_close_runs; [|exact L].
    exact (proj1 (chain_steps_wf Hp W0)).
  - exists (steps_left (ToSlice p0)). intros n s Hn.
    pose proof (steps_bound Hn). lia.
  - intros s [n Hn] Stuck.
    apply (@stuck_closed _ (contents p0)); [| |exact Stuck].
    + exact (steps_call_ok Hn (ToSlice_call_ok W0)).
    + rewrite (steps_depth Hn). exact D0.
  - intros G s [n Hn] Stuck.
    destruct (steps_doomed Hn (G0 G) eq_refl) as [_ R].
    destruct (crashed (upstream s)) eqn:Cr; [reflexivity|].
    destruct (steps_call_ok Hn (ToSlice_call_ok W0)) as [W _].
    destruct (call_progress _ W Cr R) as [s' Hs']. elim (Stuck s' Hs').
Qed.

Lemma C7_witness :
  0 <= 1
  /\ forall s,
       reachable (ToSlice (stream (Streams.CreateStream (GSend 7 GPanic)))) s ->
       (forall s', ~ step s s') ->
       closed (out (upstream s)) = true.
Proof.
  split; [lia|].
  destruct (@C7_close_runs_on_return_and_on_panic Z (GSend 7 GPanic) 1
              ltac:(lia)) as (b & _ & H).
  destruct (H (stream (Streams.CreateStream (GSend 7 GPanic)))
              (or_introl eq_refl)) as (_ & _ & _ & Hc & _).
  exact Hc.
Defined.

(** C7, as stated, fails: the generator that panics at once leaves, two
    steps of its goroutine later, a closed channel. *)
Lemma C7_counterexample :
  ~ (forall p,
       chain_steps (stream (Streams.CreateStream (@GPanic Z))) p ->
       closed (out p) = false).
Proof.
  intros H.
  specialize (H (Origin Crashed (mk_chan [] 0 true))).
  assert (E : closed (out (Origin (@Crashed (genprog Z)) (mk_chan [] 0 true)))
              = false).
  { apply H.
    apply chain_steps_step with (p' := Origin (Deferred true) (mk_chan [] 0 false)).
    { split; [reflexivity|]. left. exists 0%nat. reflexivity. }
    apply chain_steps_step with (p' := Origin Crashed (mk_chan [] 0 true)).
    { split; [reflexivity|]. left. exists 0%nat. reflexivity. }
    apply chain_steps_refl. }
  discriminate E.
Qed.

(** ** Backpressure *)

Lemma gen_sends_nonempty {T} (g : genprog T) :
  gen_sends g <> [] -> exists v k, g = GSend v k.
Proof. destruct g as [v k| |]; simpl; [eauto | congruence | congruence]. Qed.

(** The goroutine of a generator on its own, with more left to send than
    the channel holds: each step buffers the next value. *)
Lemma produce_sends {T} (C : Z) :
  forall n (g : genprog T) (bufl : list T) p,
    produce n (Origin (Running g) (mk_chan bufl C false)) = Some p ->
    Z.of_nat (length bufl) <= C ->
    C < Z.of_nat (length bufl + length (gen_sends g)) ->
    exists g',
      p = Origin (Running g') (mk_chan (bufl ++ firstn n (gen_sends g)) C false)
      /\ gen_sends g = firstn n (gen_sends g) ++ gen_sends g'
      /\ length (firstn n (gen_sends g)) = n
      /\ Z.of_nat (length bufl + n) <= C.
Proof.
  induction n as [|n IH]; intros g bufl p H L G.
  - simpl in H. injection H as <-. exists g. simpl.
    rewrite app_nil_r, Nat.add_0_r. auto.
  - destruct (gen_sends_nonempty g) as (v & k & ->).
    { intros E. rewrite E in G. simpl in G. lia. }
    simpl in H. unfold chan_send in H. simpl in H.
    destruct (Z.of_nat (length bufl) <? C) eqn:Lt; [|discriminate].
    apply Z.ltb_lt in Lt.
    destruct (IH k (bufl ++ [v]) p H) as (g' & -> & Hs & Hl & Hc).
    + rewrite length_app. simpl. lia.
    + rewrite length_app. simpl in *. lia.
    + exists g'. simpl. rewrite <- app_assoc. simpl.
      repeat split; auto.
      * f_equal. exact Hs.
      * rewrite length_app in Hc. simpl in Hc. lia.
Qed.

Lemma produce_fills {T} (C : Z) :
  forall n (g : genprog T) (bufl : list T),
    Z.of_nat (length bufl + n) <= C ->
    (n <= length (gen_sends g))%nat ->
    exists p, produce n (Origin (Running g) (mk_chan bufl C false)) = Some p.
Proof.
  induction n as [|n IH]; intros g bufl L G; [simpl; eauto|].
  destruct (gen_sends_nonempty g) as (v & k & ->).
  { intros E. rewrite E in G. simpl in G. lia. }
  simpl. unfold chan_send. simpl.
  destruct (Z.of_nat (length bufl) <? C) eqn:Lt.
  - apply IH.
    + rewrite length_app. simpl. lia.
    + simpl in G. lia.
  - apply Z.ltb_ge in Lt. lia.
Qed.

Lemma chain_steps_buf_le_cap {T} (p0 p : chain T) :
  wf p0 -> chain_steps p0 p ->
  Z.of_nat (length (buf (out p))) <= cap (out p0).
Proof.
  intros W H. destruct (chain_steps_wf H W) as (W' & <- & _).
  apply wf_buf_le_cap. exact W'.
Qed.

(** C8. A bounded pipeline of capacity [C] made from a generator that sends
    more than [C] values: the channel never holds more than [C] values;
    before any receive, the goroutine of the generator takes [C] steps, each
    buffering the next value, and then cannot move: it is at its next send,
    not over and not panicked, the channel is open, nothing is lost, and a
    receive would obtain a value. *)
Theorem C8_backpressure {T} (g : genprog T) (C : Z)
    (HC : 0 <= C) (Hg : C < Z.of_nat (length (gen_sends g))) :
  exists b,
    BufferedStreams.CreateBufferedStream g C = Some b
    /\ (forall p, chain_steps (bstream b) p ->
                  Z.of_nat (length (buf (out p))) <= C)
    /\ (forall n p,
          produce n (bstream b) = Some p ->
          Z.of_nat n <= C
          /\ buf (out p) = firstn n (gen_sends g)
          /\ length (buf (out p)) = n
          /\ contents p = gen_sends g
          /\ last_worker p = Running tt
          /\ closed (out p) = false
          /\ crashed p = false)
    /\ (exists p,
          produce (Z.to_nat C) (bstream b) = Some p
          /\ Z.of_nat (length (buf (out p))) = C
          /\ work 0 p = None
          /\ exists v p', recv p = Some (Got v, p')).
Proof.
  rewrite (CreateBufferedStream_some _ HC). eexists. split; [reflexivity|].
  simpl. unfold spawn_origin.
  assert (All : forall n p,
            produce n (Origin (Running g) (mk_chan [] C false)) = Some p ->
            exists g',
              p = Origin (Running g') (mk_chan (firstn n (gen_sends g)) C false)
              /\ gen_sends g = firstn n (gen_sends g) ++ gen_sends g'
              /\ length (firstn n (gen_sends g)) = n
              /\ Z.of_nat n <= C).
  { intros n p H. apply produce_sends in H; simpl; auto. }
  split; [|split].
  - intros p Hp.
    apply (@chain_steps_buf_le_cap _ (Origin (Running g) (mk_chan [] C false)));
      [|exact Hp].
    apply (@wf_spawn_origin _ g C HC).
  - intros n p H. destruct (All n p H) as (g' & -> & Hs & Hl & Hc).
    simpl. repeat split; auto.
  - destruct (@produce_fills T C (Z.to_nat C) g []) as [p Hp];
      [simpl; lia | lia |].
    exists p. split; [exact Hp|].
    destruct (All _ p Hp) as (g' & -> & Hs & Hl & Hc). simpl.
    assert (Ne : gen_sends g' <> []).
    { intros E. rewrite E, app_nil_r in Hs.
      rewrite <- Hs in Hl. lia. }
    destruct (gen_sends_nonempty g' Ne) as (v & k & ->).
    split; [rewrite Hl; lia|]. split.
    + simpl. unfold chan_send. simpl. rewrite Hl.
      destruct (Z.of_nat (Z.to_nat C) <? C) eqn:Lt; [|reflexivity].
      apply Z.ltb_lt in Lt. lia.
    + unfold chan_recv. simpl.
      destruct (firstn (Z.to_nat C) (gen_sends g)) as [|x rest] eqn:F.
      * simpl in Hl. assert (C = 0) by lia. subst C. simpl. eauto.
      * simpl. eauto.
Qed.

Lemma C8_witness :
  (0 <= 2 /\ 2 < Z.of_nat (length (gen_sends (feed [1; 2; 3; 4; 5]))))
  /\ exists b p,
       BufferedStreams.CreateBufferedStream (feed [1; 2; 3; 4; 5]) 2 = Some b
       /\ produce (Z.to_nat 2) (bstream b) = Some p
       /\ Z.of_nat (length (buf (out p))) = 2
       /\ work 0 p = None.
Proof.
  split; [simpl; lia|].
  destruct (@C8_backpressure Z (feed [1; 2; 3; 4; 5]) 2
              ltac:(lia) ltac:(simpl; lia))
    as (b & Hb & _ & _ & (p & Hp & Hl & Hw & _)).
  exists b, p. repeat split; assumption.
Defined.

(** * More of the package *)

(** ** The loops of [iterable] *)

Lemma filter_loop {T} (fn : T -> bool) (l pre : list T) :
  fold_left (fun result v => if fn v then append result v else result)
            l (gather pre)
  = gather (pre ++ filter fn l).
Proof.
  revert pre. induction l as [|v l IH]; intros pre; simpl.
  - rewrite app_nil_r. reflexivity.
  - destruct (fn v).
    + rewrite append_gather, IH, <- app_assoc. reflexivity.
    + apply IH.
Qed.

Lemma Filter_items {T} (fn : T -> bool) (c : iterable T) :
  items (Iterable.Filter fn c) = gather (filter fn (elems (items c))).
Proof. apply (filter_loop fn (elems (items c)) []). Qed.

Lemma map_loop {T} (fn : T -> any) (l : list T) (pre : list any) :
  fold_left (fun result v => append result (fn v)) l (gather pre)
  = gather (pre ++ map fn l).
Proof.
  revert pre. induction l as [|v l IH]; intros pre; simpl.
  - rewrite app_nil_r. reflexivity.
  - rewrite append_gather, IH, <- app_assoc. reflexivity.
Qed.

Lemma Map_items {T} (fn : T -> any) (c : iterable T) :
  items (Iterable.Map fn c) = gather (map fn (elems (items c))).
Proof. apply (map_loop fn (elems (items c)) []). Qed.

Lemma recast_loop (t : gotype) (l : list any) (pre : list (denote t)) :
  fold_left (fun result v =>
               match type_assert t v with
               | Some casted => append result casted
               | None => result
               end) l (gather pre)
  = gather (pre ++ forward (recast_body t) l).
Proof.
  revert pre. induction l as [|v l IH]; intros pre; simpl.
  - rewrite app_nil_r. reflexivity.
  - unfold recast_body at 1. destruct (type_assert t v).
    + rewrite append_gather, IH, <- app_assoc. reflexivity.
    + apply IH.
Qed.

Lemma RecastSlice_items (t : gotype) (c : iterable any) :
  items (Iterable.RecastSlice t c)
  = gather (forward (recast_body t) (elems (items c))).
Proof. apply (recast_loop t (elems (items c)) []). Qed.

Lemma forward_recast_dyn {T} (t : gotype) (f : T -> denote t) (l : list T) :
  forward (recast_body t) (map (fun x => dyn t (f x)) l) = map f l.
Proof.
  induction l as [|v l IH]; [reflexivity|].
  cbn [map forward]. unfold recast_body at 1.
  rewrite type_assert_dyn, IH. reflexivity.
Qed.

Lemma gather_is_nil {T} (l : list T) : is_nil (gather l) = is_empty l.
Proof. destruct l; reflexivity. Qed.

Lemma filter_empty_iff {T} (fn : T -> bool) (l : list T) :
  is_empty (filter fn l) = true <-> forall x, In x l -> fn x = false.
Proof.
  induction l as [|v l IH]; simpl.
  - split; [intros _ x [] | reflexivity].
  - destruct (fn v) eqn:E; simpl.
    + split; [discriminate|]. intros H. rewrite (H v) in E; [discriminate|auto].
    + rewrite IH. split.
      * intros H x [<-|Hx]; auto.
      * intros H x Hx. apply H. auto.
Qed.

(** X1. [Filter] keeps exactly the items that pass [fn], in order; when
    none passes the result is the nil slice, whatever the slice filtered. *)
Theorem X1_Filter_keeps_passing {T} (fn : T -> bool) (c : iterable T) :
  elems (items (Iterable.Filter fn c)) = filter fn (elems (items c))
  /\ len (items (Iterable.Filter fn c)) <= len (items c)
  /\ (is_nil (items (Iterable.Filter fn c)) = true
      <-> forall x, In x (elems (items c)) -> fn x = false).
Proof.
  rewrite Filter_items. split; [apply gather_elems|]. split.
  - rewrite len_gather. unfold len. apply inj_le, filter_length_le.
  - rewrite gather_is_nil. apply filter_empty_iff.
Qed.

(** X2. [Map] with a function into the type [t], then [RecastSlice] to [t]:
    the images of the items, all of them, in order. *)
Theorem X2_Map_then_RecastSlice {T} (t : gotype) (f : T -> denote t)
    (c : iterable T) :
  elems (items (Iterable.Map (fun x => dyn t (f x)) c))
  = map (fun x => dyn t (f x)) (elems (items c))
  /\ elems (items (Iterable.RecastSlice t
                     (Iterable.Map (fun x => dyn t (f x)) c)))
     = map f (elems (items c))
  /\ len (items (Iterable.RecastSlice t
                   (Iterable.Map (fun x => dyn t (f x)) c)))
     = len (items c).
Proof.
  rewrite RecastSlice_items, Map_items, !gather_elems, forward_recast_dyn.
  split; [reflexivity|]. split; [reflexivity|].
  rewrite len_gather, length_map. reflexivity.
Qed.

(** X3. [RecastSlice] to a concrete type [t] (not an interface type: here
    int, string or bool) keeps the values of the items whose dynamic type
    is [t], in order, and drops the others, the nil interface value among
    them. *)
Theorem X3_RecastSlice_keeps_matching (t : gotype) (c : iterable any) :
  map (dyn t) (elems (items (Iterable.RecastSlice t c)))
  = filter (has_type t) (elems (items c))
  /\ len (items (Iterable.RecastSlice t c)) <= len (items c)
  /\ ~ In nil_any (map (dyn t) (elems (items (Iterable.RecastSlice t c)))).
Proof.
  rewrite RecastSlice_items, gather_elems, forward_recast. split; [reflexivity|].
  split.
  - rewrite len_gather, <- (length_map (dyn t)), forward_recast.
    unfold len. apply inj_le, filter_length_le.
  - rewrite filter_In. intros [_ H]. discriminate H.
Qed.

(** X4. [Reduce] over a [Concat] is [Reduce] over the second slice, started
    from [Reduce] over the first. *)
Theorem X4_Reduce_Concat {T} (fn : T -> T -> T) (initial : T)
    (c : iterable T) (other : slice T) :
  Iterable.Reduce fn initial (Iterable.Concat c other)
  = Iterable.Reduce fn (Iterable.Reduce fn initial c) (Slices.Slicefy other).
Proof.
  unfold Iterable.Reduce, Iterable.Concat, append_all, Slices.Slicefy. simpl.
  destruct (elems other) as [|x rest] eqn:E; simpl; [reflexivity|].
  rewrite fold_left_app. reflexivity.
Qed.

Lemma find_loop_some {T} (fn : T -> bool) (l : list T) (v : T) :
  Iterable.find_loop fn l = Some v <->
  exists l1 l2, l = l1 ++ v :: l2 /\ fn v = true
                /\ forall x, In x l1 -> fn x = false.
Proof.
  induction l as [|a l IH]; simpl.
  - split; [discriminate|]. intros (l1 & l2 & E & _). destruct l1; discriminate.
  - destruct (fn a) eqn:Fa.
    + split.
      * intros H. injection H as <-. exists [], l. simpl. repeat split; auto.
        intros x [].
      * intros (l1 & l2 & E & Fv & Hl1). destruct l1 as [|b l1]; simpl in E.
        -- injection E as -> _. reflexivity.
        -- injection E as <- _. rewrite (Hl1 a) in Fa; [discriminate|simpl; auto].
    + rewrite IH. split.
      * intros (l1 & l2 & -> & Fv & Hl1). exists (a :: l1), l2.
        repeat split; auto. intros x [<-|Hx]; auto.
      * intros (l1 & l2 & E & Fv & Hl1). destruct l1 as [|b l1]; simpl in E.
        -- injection E as -> _. congruence.
        -- injection E as <- ->. exists l1, l2. repeat split; auto.
           intros x Hx. apply Hl1. simpl. auto.
Qed.

Lemma find_loop_none {T} (fn : T -> bool) (l : list T) :
  Iterable.find_loop fn l = None <-> forall x, In x l -> fn x = false.
Proof.
  induction l as [|a l IH]; simpl.
  - split; [intros _ x [] | reflexivity].
  - destruct (fn a) eqn:Fa.
    + split; [discriminate|]. intros H. rewrite (H a) in Fa; [discriminate|auto].
    + rewrite IH. split.
      * intros H x [<-|Hx]; auto.
      * intros H x Hx. apply H. auto.
Qed.

Lemma find_loop_filter {T} (fn : T -> bool) (l : list T) :
  Iterable.find_loop fn l = hd_error (filter fn l).
Proof.
  induction l as [|a l IH]; simpl; [reflexivity|].
  destruct (fn a); [reflexivity | exact IH].
Qed.

(** X5. [Find] returns the first item that passes [fn]: every item before
    it fails; it returns nil exactly when no item passes; and it is the
    first item of what [Filter] keeps. *)
Theorem X5_Find_first_passing {T} (fn : T -> bool) (c : iterable T) :
  (forall v,
     Iterable.Find fn c = Some v <->
     exists l1 l2, elems (items c) = l1 ++ v :: l2 /\ fn v = true
                   /\ forall x, In x l1 -> fn x = false)
  /\ (Iterable.Find fn c = None <->
      forall x, In x (elems (items c)) -> fn x = false)
  /\ Iterable.Find fn c = hd_error (elems (items (Iterable.Filter fn c))).
Proof.
  split; [intros v; apply find_loop_some|].
  split; [apply find_loop_none|].
  rewrite Filter_items, gather_elems. apply find_loop_filter.
Qed.

Lemma some_loop_existsb {T} (fn : T -> bool) (l : list T) :
  Iterable.some_loop fn l = existsb fn l.
Proof.
  induction l as [|a l IH]; simpl; [reflexivity|].
  destruct (fn a); [reflexivity | exact IH].
Qed.

Lemma every_loop_forallb {T} (fn : T -> bool) (l : list T) :
  Iterable.every_loop fn l = forallb fn l.
Proof.
  induction l as [|a l IH]; simpl; [reflexivity|].
  destruct (fn a); [exact IH | reflexivity].
Qed.

Lemma forallb_filter_id {T} (fn : T -> bool) (l : list T) :
  forallb fn l = true -> filter fn l = l.
Proof.
  induction l as [|a l IH]; simpl; [reflexivity|].
  destruct (fn a); simpl; [|discriminate]. intros H. rewrite (IH H). reflexivity.
Qed.

(** X6. [Some] holds exactly when an item passes [fn], [Every] exactly when
    all do (so on no items [Some] is false and [Every] true); [Every] is
    the negation of [Some] of the negated test; [Some] holds exactly when
    [Find] finds; and when [Every] holds [Filter] keeps all the items. *)
Theorem X6_Some_Every {T} (fn : T -> bool) (c : iterable T) :
  (Iterable.Some_ fn c = true <->
   exists x, In x (elems (items c)) /\ fn x = true)
  /\ (Iterable.Every fn c = true <->
      forall x, In x (elems (items c)) -> fn x = true)
  /\ Iterable.Every fn c = negb (Iterable.Some_ (fun x => negb (fn x)) c)
  /\ (Iterable.Some_ fn c = true <-> Iterable.Find fn c <> None)
  /\ (Iterable.Every fn c = true ->
      elems (items (Iterable.Filter fn c)) = elems (items c)).
Proof.
  unfold Iterable.Some_, Iterable.Every, Iterable.Find.
  rewrite !some_loop_existsb, every_loop_forallb.
  split; [apply existsb_exists|]. split; [apply forallb_forall|].
  split.
  - induction (elems (items c)) as [|a l IH]; simpl; [reflexivity|].
    rewrite IH. destruct (fn a); reflexivity.
  - split.
    + rewrite find_loop_filter.
      induction (elems (items c)) as [|a l IH]; simpl.
      * split; [discriminate | congruence].
      * destruct (fn a); simpl; [split; [discriminate | reflexivity] | exact IH].
    + intros H. rewrite Filter_items, gather_elems.
      apply forallb_filter_id. exact H.
Qed.

(** ** Sub-ranges, again *)

Lemma Slice_in_range {T} (c : iterable T) (a b : Z) :
  0 <= a -> a <= b -> b <= len (items c) ->
  Slices.Slice c a b
  = Some (mk_iterable
            match items c with
            | nil_slice => nil_slice
            | mk_slice l =>
                mk_slice (firstn (Z.to_nat (b - a)) (skipn (Z.to_nat a) l))
            end).
Proof.
  intros H0 H1 H2. unfold Slices.Slice, reslice.
  destruct ((a <? 0) || (b >? len (items c)) || (a >? b)) eqn:E.
  { rewrite !orb_true_iff, Z.ltb_lt, !Z.gtb_ltb, !Z.ltb_lt in E. lia. }
  destruct ((0 <=? a) && (a <=? b) && (b <=? len (items c))) eqn:E2.
  2:{ rewrite !andb_false_iff, !Z.leb_gt in E2. lia. }
  destruct (items c); reflexivity.
Qed.

Lemma sub_range_elems {T} (s : slice T) (a b : Z) :
  elems match s with
        | nil_slice => nil_slice
        | mk_slice l =>
            mk_slice (firstn (Z.to_nat (b - a)) (skipn (Z.to_nat a) l))
        end
  = firstn (Z.to_nat (b - a)) (skipn (Z.to_nat a) (elems s)).
Proof.
  destruct s; simpl; [|reflexivity].
  rewrite skipn_nil, firstn_nil. reflexivity.
Qed.

Lemma len_append_all {T} (s other : slice T) :
  elems (append_all s other) = elems s ++ elems other.
Proof.
  unfold append_all. destruct (elems other) as [|x rest]; simpl;
    [rewrite app_nil_r|]; reflexivity.
Qed.

(** X7. [Concat] then [Slice]: the sub-range up to the old length has the
    items of the iterable, the sub-range from there on has the items
    appended, and the length is the sum of the two lengths. *)
Theorem X7_Concat_then_Slice {T} (c : iterable T) (other : slice T) :
  len (items (Iterable.Concat c other)) = len (items c) + len other
  /\ (exists r,
        Slices.Slice (Iterable.Concat c other) 0 (len (items c)) = Some r
        /\ elems (items r) = elems (items c))
  /\ (exists r,
        Slices.Slice (Iterable.Concat c other)
                     (len (items c)) (len (items c) + len other) = Some r
        /\ elems (items r) = elems other).
Proof.
  assert (L : len (items (Iterable.Concat c other)) = len (items c) + len other).
  { unfold len. simpl. rewrite len_append_all, length_app. lia. }
  split; [exact L|]. unfold len in *. split.
  - rewrite Slice_in_range; unfold len; try lia.
    eexists. split; [reflexivity|]. simpl.
    rewrite sub_range_elems, len_append_all. simpl.
    rewrite Z.sub_0_r, Nat2Z.id, firstn_app, Nat.sub_diag, firstn_all.
    simpl. apply app_nil_r.
  - rewrite Slice_in_range; unfold len; try lia.
    eexists. split; [reflexivity|]. simpl.
    rewrite sub_range_elems, len_append_all.
    replace (Z.of_nat (length (elems (items c))) + Z.of_nat (length (elems other))
             - Z.of_nat (length (elems (items c))))
      with (Z.of_nat (length (elems other))) by lia.
    rewrite !Nat2Z.id, skipn_app, Nat.sub_diag, skipn_all. simpl.
    apply firstn_all.
Qed.

Lemma sub_sub_range {T} (l : list T) (a n x m : nat) :
  (x + m <= n)%nat ->
  firstn m (skipn x (firstn n (skipn a l))) = firstn m (skipn (a + x) l).
Proof.
  intros H. rewrite skipn_firstn_comm, firstn_firstn, skipn_skipn.
  rewrite Nat.min_l by lia. f_equal. f_equal. lia.
Qed.

(** X8. A sub-range of a sub-range is the sub-range at the added offsets,
    and the sub-range of everything is the iterable itself. *)
Theorem X8_Slice_of_Slice {T} (c : iterable T) (a b x y : Z)
    (Ha : 0 <= a) (Hab : a <= b) (Hb : b <= len (items c))
    (Hx : 0 <= x) (Hxy : x <= y) (Hy : y <= b - a) :
  (exists r r',
     Slices.Slice c a b = Some r
     /\ len (items r) = b - a
     /\ Slices.Slice r x y = Some r'
     /\ Slices.Slice c (a + x) (a + y) = Some r')
  /\ Slices.Slice c 0 (len (items c)) = Some c.
Proof.
  split.
  - rewrite (Slice_in_range c Ha Hab Hb). eexists. eexists.
    split; [reflexivity|].
    assert (L : len (items (mk_iterable
                  match items c with
                  | nil_slice => nil_slice
                  | mk_slice l =>
                      mk_slice (firstn (Z.to_nat (b - a)) (skipn (Z.to_nat a) l))
                  end)) = b - a).
    { unfold len in *. simpl. rewrite sub_range_elems.
      rewrite length_firstn, length_skipn. lia. }
    split; [exact L|].
    rewrite Slice_in_range by lia.
    rewrite Slice_in_range by lia.
    split; [reflexivity|]. f_equal. f_equal. simpl.
    destruct (items c) as [|l]; [reflexivity|]. f_equal.
    replace (a + y - (a + x)) with (y - x) by lia.
    rewrite Z2Nat.inj_add by lia. symmetry. apply sub_sub_range. lia.
  - rewrite Slice_in_range; unfold len; try lia.
    destruct c as [[|l]]; simpl; [reflexivity|].
    rewrite Z.sub_0_r, Nat2Z.id, firstn_all. reflexivity.
Qed.

Lemma X8_witness :
  (0 <= 1 /\ 1 <= 4 /\ 4 <= len (mk_slice [10; 20; 30; 40; 50])
   /\ 0 <= 1 /\ 1 <= 2 /\ 2 <= 4 - 1)
  /\ exists r r',
       Slices.Slice (mk_iterable (mk_slice [10; 20; 30; 40; 50])) 1 4 = Some r
       /\ Slices.Slice r 1 2 = Some r'
       /\ Slices.Slice (mk_iterable (mk_slice [10; 20; 30; 40; 50])) 2 3
          = Some r'.
Proof.
  split; [unfold len; simpl; lia|].
  destruct (@X8_Slice_of_Slice Z (mk_iterable (mk_slice [10; 20; 30; 40; 50]))
              1 4 1 2 ltac:(lia) ltac:(lia) ltac:(unfold len; simpl; lia)
              ltac:(lia) ltac:(lia) ltac:(lia))
    as [(r & r' & H1 & _ & H2 & H3) _].
  exists r, r'. repeat split; assumption.
Defined.

Lemma filter_filter_and {T} (p q : T -> bool) (l : list T) :
  filter q (filter p l) = filter (fun x => p x && q x) l.
Proof.
  induction l as [|a l IH]; simpl; [reflexivity|].
  destruct (p a); simpl; [destruct (q a); rewrite IH; reflexivity | exact IH].
Qed.

(** X9. Two [Filter]s are one [Filter] with both tests, in either order,
    nil results included; and [Filter] of a [Concat] has what [Filter]
    keeps of the one followed by what it keeps of the other. *)
Theorem X9_Filter_composes {T} (p q : T -> bool) (c : iterable T)
    (other : slice T) :
  Iterable.Filter q (Iterable.Filter p c)
  = Iterable.Filter (fun x => p x && q x) c
  /\ Iterable.Filter q (Iterable.Filter p c)
     = Iterable.Filter p (Iterable.Filter q c)
  /\ elems (items (Iterable.Filter p (Iterable.Concat c other)))
     = elems (items (Iterable.Filter p c))
       ++ elems (items (Iterable.Filter p (Slices.Slicefy other))).
Proof.
  assert (E : forall (f g : T -> bool) (d : iterable T),
             Iterable.Filter g (Iterable.Filter f d)
             = mk_iterable (gather (filter (fun x => f x && g x)
                                           (elems (items d))))).
  { intros f g d.
    change (Iterable.Filter g (Iterable.Filter f d))
      with (mk_iterable (items (Iterable.Filter g (Iterable.Filter f d)))).
    rewrite (Filter_items g), (Filter_items f), gather_elems, filter_filter_and.
    reflexivity. }
  split; [|split].
  - rewrite E.
    change (Iterable.Filter (fun x => p x && q x) c)
      with (mk_iterable (items (Iterable.Filter (fun x => p x && q x) c))).
    rewrite Filter_items. reflexivity.
  - rewrite !E. f_equal. f_equal. apply filter_ext. intros x. apply andb_comm.
  - rewrite !Filter_items, !gather_elems. simpl.
    rewrite len_append_all. apply filter_app.
Qed.

(** ** From slices to streams and back *)

(** X10. An iterable turned into a stream, unbuffered or of capacity [n],
    and drained: the items, in order. The slice returned is nil exactly
    when there are no items, also when the iterable held an empty slice
    that was not nil. *)
Theorem X10_iterable_to_stream_and_back {T} (c : iterable T) (n : Z)
    (Hn : 0 <= n) :
  let r := gather (elems (items c)) in
  elems r = elems (Slices.ToSlice c)
  /\ (is_nil r = true <-> elems (items c) = [])
  /\ always_returns (ToSlice (stream (Slices.ToStream c))) r
  /\ exists b, Slices.ToBufferedStream c n = Some b
               /\ always_returns (ToSlice (bstream b)) r.
Proof.
  intros r. subst r. split; [apply gather_elems|]. split.
  { rewrite gather_is_nil. destruct (elems (items c)); simpl;
      split; congruence. }
  split.
  - apply ToSlice_returns_list.
    + apply wf_spawn_origin. lia.
    + apply panic_free_spawn_origin, gen_panics_feed.
    + simpl. apply gen_sends_feed.
  - unfold Slices.ToBufferedStream. rewrite (make_chan_some _ Hn).
    eexists. split; [reflexivity|]. simpl.
    apply ToSlice_returns_list.
    + apply wf_spawn_origin. exact Hn.
    + apply panic_free_spawn_origin, gen_panics_feed.
    + simpl. apply gen_sends_feed.
Qed.

Lemma X10_witness :
  0 <= 2
  /\ always_returns
       (ToSlice (stream (Slices.ToStream (mk_iterable (mk_slice (@nil Z))))))
       nil_slice.
Proof.
  split; [lia|].
  apply (@X10_iterable_to_stream_and_back Z (mk_iterable (mk_slice [])) 2).
  lia.
Defined.

(** ** Generators *)

(** X11. A stream made from a generator that returns, drained: the values
    the generator sent, in the order it sent them, under every schedule.
    For [CreateStream] and for [CreateBufferedStream]. *)
Theorem X11_generator_drains_to_its_sends {T} (g : genprog T) (C : Z)
    (Hg : gen_panics g = false) (HC : 0 <= C) :
  always_returns (ToSlice (stream (Streams.CreateStream g)))
                 (gather (gen_sends g))
  /\ exists b, BufferedStreams.CreateBufferedStream g C = Some b
               /\ BufferSize b = C
               /\ always_returns (ToSlice (bstream b)) (gather (gen_sends g)).
Proof.
  split.
  - apply ToSlice_returns_list.
    + apply wf_CreateStream.
    + apply panic_free_spawn_origin. exact Hg.
    + reflexivity.
  - rewrite (CreateBufferedStream_some _ HC). eexists.
    split; [reflexivity|]. split; [reflexivity|].
    apply ToSlice_returns_list.
    + apply wf_spawn_origin. exact HC.
    + apply panic_free_spawn_origin. exact Hg.
    + reflexivity.
Qed.

Lemma X11_witness :
  (gen_panics (GSend 1 (GSend 2 (GSend 3 GReturn))) = false /\ 0 <= 10)
  /\ always_returns
       (ToSlice (stream (Streams.CreateStream
                           (GSend 1 (GSend 2 (GSend 3 GReturn))))))
       (mk_slice [1; 2; 3]).
Proof.
  split; [split; [reflexivity | lia]|].
  apply (@X11_generator_drains_to_its_sends Z
           (GSend 1 (GSend 2 (GSend 3 GReturn))) 10 eq_refl).
  lia.
Defined.

(** ** Stages on any stream *)

Lemma returns_contents {T} (p : chain T) (r : slice T) :
  wf p -> panic_free p = true ->
  always_returns (ToSlice p) r -> r = gather (contents p).
Proof.
  intros W PF H.
  exact (always_returns_unique H (ToSlice_returns W PF)).
Qed.

Lemma stage_returns {A T} (up : chain A) (body : A -> option T) (c : Z) :
  0 <= c -> wf up -> panic_free up = true ->
  always_returns (ToSlice (spawn_stage up body (mk_chan [] c false)))
                 (gather (forward body (contents up))).
Proof.
  intros Hc W PF. apply ToSlice_returns_list.
  - apply wf_spawn_stage; assumption.
  - apply panic_free_spawn_stage. exact PF.
  - reflexivity.
Qed.

(** X12. [Pipe] on any stream: if draining the stream returns [r], then
    draining [Pipe fn] of it returns the images by [fn] of the elements of
    [r], as many and in the same order; and draining the stream does
    return. For streams and for buffered streams. *)
Theorem X12_Pipe_maps_any_stream {T} (fn : T -> any) (s : streamable T)
    (b : bufferedStream T)
    (Ws : wf (stream s)) (Ps : panic_free (stream s) = true)
    (Wb : wf (bstream b)) (Pb : panic_free (bstream b) = true)
    (HC : 0 <= BufferSize b) :
  (exists r, always_returns (ToSlice (stream s)) r)
  /\ (forall r,
        always_returns (ToSlice (stream s)) r ->
        always_returns (ToSlice (stream (Streams.Pipe fn s)))
                       (gather (map fn (elems r))))
  /\ (exists r, always_returns (ToSlice (bstream b)) r)
  /\ exists b',
       BufferedStreams.Pipe fn b = Some b'
       /\ forall r,
            always_returns (ToSlice (bstream b)) r ->
            always_returns (ToSlice (bstream b'))
                           (gather (map fn (elems r))).
Proof.
  split; [eexists; apply ToSlice_returns; assumption|]. split.
  { intros r Hr. rewrite (returns_contents Ws Ps Hr), gather_elems.
    rewrite <- forward_pipe. apply stage_returns; auto. lia. }
  split; [eexists; apply ToSlice_returns; assumption|].
  unfold BufferedStreams.Pipe. rewrite (make_chan_some _ HC).
  eexists. split; [reflexivity|]. simpl.
  intros r Hr. rewrite (returns_contents Wb Pb Hr), gather_elems.
  rewrite <- forward_pipe. apply stage_returns; auto.
Qed.

(** X13. [Filter] on any stream: if draining the stream returns [r], then
    draining [Filter fn] of it returns the elements of [r] that pass [fn],
    in the same order. For streams and for buffered streams. *)
Theorem X13_Filter_filters_any_stream {T} (fn : T -> bool) (s : streamable T)
    (b : bufferedStream T)
    (Ws : wf (stream s)) (Ps : panic_free (stream s) = true)
    (Wb : wf (bstream b)) (Pb : panic_free (bstream b) = true)
    (HC : 0 <= BufferSize b) :
  (forall r,
     always_returns (ToSlice (stream s)) r ->
     always_returns (ToSlice (stream (Streams.Filter fn s)))
                    (gather (filter fn (elems r))))
  /\ exists b',
       BufferedStreams.Filter fn b = Some b'
       /\ forall r,
            always_returns (ToSlice (bstream b)) r ->
            always_returns (ToSlice (bstream b'))
                           (gather (filter fn (elems r))).
Proof.
  split.
  { intros r Hr. rewrite (returns_contents Ws Ps Hr), gather_elems.
    rewrite <- forward_filter. apply stage_returns; auto. lia. }
  unfold BufferedStreams.Filter. rewrite (make_chan_some _ HC).
  eexists. split; [reflexivity|]. simpl.
  intros r Hr. rewrite (returns_contents Wb Pb Hr), gather_elems.
  rewrite <- forward_filter. apply stage_returns; auto.
Qed.

(** X14. [Pipe] with a function into the type [t], then a recast to [t]:
    if draining the stream returns [r], draining the recast returns the
    images of the elements of [r], none dropped. For [RecastStream] and
    for [RecastBufferedStream]. *)
Theorem X14_Pipe_then_Recast {T} (t : gotype) (f : T -> denote t)
    (s : streamable T) (b : bufferedStream T)
    (Ws : wf (stream s)) (Ps : panic_free (stream s) = true)
    (Wb : wf (bstream b)) (Pb : panic_free (bstream b) = true)
    (HC : 0 <= BufferSize b) :
  (forall r,
     always_returns (ToSlice (stream s)) r ->
     always_returns
       (ToSlice (stream (Streams.RecastStream t
                           (Streams.Pipe (fun x => dyn t (f x)) s))))
       (gather (map f (elems r))))
  /\ exists b1 b2,
       BufferedStreams.Pipe (fun x => dyn t (f x)) b = Some b1
       /\ BufferedStreams.RecastBufferedStream t b1 = Some b2
       /\ BufferSize b2 = BufferSize b
       /\ forall r,
            always_returns (ToSlice (bstream b)) r ->
            always_returns (ToSlice (bstream b2)) (gather (map f (elems r))).
Proof.
  assert (F : forall l : list T,
             forward (recast_body t)
                     (forward (pipe_body (fun x => dyn t (f x))) l)
             = map f l).
  { intros l. rewrite forward_pipe. apply forward_recast_dyn. }
  split.
  { intros r Hr. rewrite (returns_contents Ws Ps Hr), gather_elems.
    rewrite <- F. apply ToSlice_returns_list.
    - apply wf_spawn_stage; [lia|]. apply wf_spawn_stage; [lia | exact Ws].
    - apply panic_free_spawn_stage, panic_free_spawn_stage. exact Ps.
    - reflexivity. }
  unfold BufferedStreams.Pipe. rewrite (make_chan_some _ HC).
  eexists. eexists. split; [reflexivity|].
  unfold BufferedStreams.RecastBufferedStream. simpl.
  rewrite (make_chan_some _ HC). split; [reflexivity|].
  split; [reflexivity|]. simpl.
  intros r Hr. rewrite (returns_contents Wb Pb Hr), gather_elems.
  rewrite <- F. apply ToSlice_returns_list.
  - apply wf_spawn_stage; [exact HC|]. apply wf_spawn_stage; assumption.
  - apply panic_free_spawn_stage, panic_free_spawn_stage. exact Pb.
  - reflexivity.
Qed.

Lemma X12_witness :
  (wf (stream (Streams.Streamify (mk_slice [1; 2; 3])))
   /\ panic_free (stream (Streams.Streamify (mk_slice [1; 2; 3]))) = true
   /\ 0 <= 2)
  /\ forall r,
       always_returns
         (ToSlice (stream (Streams.Streamify (mk_slice [1; 2; 3])))) r ->
       always_returns
         (ToSlice (stream (Streams.Pipe (fun x : Z => dyn TInt (x + 1))
                             (Streams.Streamify (mk_slice [1; 2; 3])))))
         (gather (map (fun x : Z => dyn TInt (x + 1)) (elems r))).
Proof.
  split; [repeat split; lia|].
  destruct (@X12_Pipe_maps_any_stream Z (fun x : Z => dyn TInt (x + 1))
              (Streams.Streamify (mk_slice [1; 2; 3]))
              (mk_bufferedStream
                 (spawn_origin (feed [1; 2]) (mk_chan [] 2 false)) 2)
              eq_refl eq_refl eq_refl eq_refl ltac:(simpl; lia))
    as (_ & H & _).
  exact H.
Defined.

Lemma X13_witness :
  (wf (stream (Streams.Streamify (mk_slice [1; 2; 3; 4])))
   /\ panic_free (stream (Streams.Streamify (mk_slice [1; 2; 3; 4]))) = true
   /\ 0 <= 2)
  /\ forall r,
       always_returns
         (ToSlice (stream (Streams.Streamify (mk_slice [1; 2; 3; 4])))) r ->
       always_returns
         (ToSlice (stream (Streams.Filter Z.odd
                             (Streams.Streamify (mk_slice [1; 2; 3; 4])))))
         (gather (filter Z.odd (elems r))).
Proof.
  split; [repeat split; lia|].
  destruct (@X13_Filter_filters_any_stream Z Z.odd
              (Streams.Streamify (mk_slice [1; 2; 3; 4]))
              (mk_bufferedStream
                 (spawn_origin (feed [1; 2]) (mk_chan [] 2 false)) 2)
              eq_refl eq_refl eq_refl eq_refl ltac:(simpl; lia))
    as (H & _).
  exact H.
Defined.

Lemma X14_witness :
  (wf (stream (Streams.Streamify (mk_slice [1; 2; 3; 4])))
   /\ panic_free (stream (Streams.Streamify (mk_slice [1; 2; 3; 4]))) = true
   /\ 0 <= 2)
  /\ forall r,
       always_returns
         (ToSlice (stream (Streams.Streamify (mk_slice [1; 2; 3; 4])))) r ->
       always_returns
         (ToSlice (stream (Streams.RecastStream TInt
                     (Streams.Pipe (fun x : Z => dyn TInt (2 * x))
                        (Streams.Streamify (mk_slice [1; 2; 3; 4]))))))
         (gather (map (fun x : Z => 2 * x) (elems r))).
Proof.
  split; [repeat split; lia|].
  destruct (@X14_Pipe_then_Recast Z TInt (fun x : Z => 2 * x)
              (Streams.Streamify (mk_slice [1; 2; 3; 4]))
              (mk_bufferedStream
                 (spawn_origin (feed [1; 2]) (mk_chan [] 2 false)) 2)
              eq_refl eq_refl eq_refl eq_refl ltac:(simpl; lia))
    as (H & _).
  exact H.
Defined.

(** ** [ForEach] on a stream *)

Lemma ForEach_visit_ok {T St} (fn : T -> St -> St) (p : chain T) (st : St) :
  wf p -> visit_ok fn st (contents p) (ForEach p st).
Proof.
  intros W. split; [exact W|]. exists []. simpl.
  repeat split; auto. discriminate.
Qed.

Lemma visit_step_ok {T St} (fn : T -> St -> St) (st0 : St) (l : list T)
    (s s' : visit T St) :
  visit_ok fn st0 l s -> visit_step fn s s' -> visit_ok fn st0 l s'.
Proof.
  intros (W & pre & Hr & Hl & Hd) [a H]. unfold visit_step_at in H.
  destruct (crashed (v_upstream s)); [discriminate|].
  destruct a as [|i].
  - destruct (v_returned s); [discriminate|].
    destruct (recv (v_upstream s)) as [[[v|] p']|] eqn:R; [| |discriminate];
      injection H as <-; simpl.
    + split; [exact (recv_got_wf R W)|]. exists (pre ++ [v]).
      rewrite fold_left_app, <- Hr, <- app_assoc. simpl.
      rewrite <- (recv_got_contents _ R). repeat split; auto. discriminate.
    + destruct (recv_eof_inv _ R) as [-> D]. split; [exact W|].
      exists pre. repeat split; auto.
  - destruct (work i (v_upstream s)) as [p'|] eqn:E; [|discriminate].
    injection H as <-. simpl.
    destruct (@work_sound _ _ _ _ E W) as (W' & Cn & _ & Dp).
    split; [exact W'|]. exists pre. simpl in *. rewrite Cn. auto.
Qed.

Lemma visit_steps_ok {T St} (fn : T -> St -> St) (st0 : St) (l : list T)
    (n : nat) (s s' : visit T St) :
  visit_steps fn n s s' -> visit_ok fn st0 l s -> visit_ok fn st0 l s'.
Proof.
  induction 1 as [|n s s1 s2 H1 _ IH]; intros K; auto.
  apply IH. exact (visit_step_ok K H1).
Qed.

Lemma visit_step_measure {T St} (fn : T -> St -> St) (s s' : visit T St) :
  visit_step fn s s' ->
  (work_left (v_upstream s') + size (v_upstream s')
   + (if v_returned s' then 0 else 1)
   < work_left (v_upstream s) + size (v_upstream s)
     + (if v_returned s then 0 else 1))%nat.
Proof.
  intros [a H]. unfold visit_step_at in H.
  destruct (crashed (v_upstream s)); [discriminate|].
  destruct a as [|i].
  - destruct (v_returned s); [discriminate|].
    destruct (recv (v_upstream s)) as [[[v|] p']|] eqn:R; [| |discriminate];
      injection H as <-; simpl.
    + pose proof (recv_got_size _ R). pose proof (recv_got_work_left _ R). lia.
    + destruct (recv_eof_inv _ R) as [-> D]. lia.
  - destruct (work i (v_upstream s)) as [p'|] eqn:E; [|discriminate].
    injection H as <-. simpl. destruct (@work_measure _ _ _ _ E). lia.
Qed.

Lemma visit_steps_bound {T St} (fn : T -> St -> St) (n : nat)
    (s s' : visit T St) :
  visit_steps fn n s s' ->
  (n <= work_left (v_upstream s) + size (v_upstream s)
        + (if v_returned s then 0 else 1))%nat.
Proof.
  induction 1 as [|n s s1 s2 H1 _ IH]; [lia|].
  apply visit_step_measure in H1. lia.
Qed.

Lemma visit_steps_panic_free {T St} (fn : T -> St -> St) (st0 : St)
    (l : list T) (n : nat) (s s' : visit T St) :
  visit_steps fn n s s' -> visit_ok fn st0 l s ->
  panic_free (v_upstream s) = true -> panic_free (v_upstream s') = true.
Proof.
  induction 1 as [|n s s1 s2 H1 _ IH]; intros K PF; auto.
  apply IH; [exact (visit_step_ok K H1)|].
  destruct K as [W _]. destruct H1 as [a H]. unfold visit_step_at in H.
  destruct (crashed (v_upstream s)); [discriminate|].
  destruct a as [|i].
  - destruct (v_returned s); [discriminate|].
    destruct (recv (v_upstream s)) as [[[v|] p']|] eqn:R; [| |discriminate];
      injection H as <-; simpl.
    + exact (recv_got_panic_free _ R PF).
    + destruct (recv_eof_inv _ R) as [-> D]. exact PF.
  - destruct (work i (v_upstream s)) as [p'|] eqn:E; [|discriminate].
    injection H as <-. simpl. exact (@work_panic_free _ _ _ _ E W PF).
Qed.

Lemma visit_progress {T St} (fn : T -> St -> St) (s : visit T St) :
  wf (v_upstream s) -> crashed (v_upstream s) = false ->
  v_returned s = false -> exists s', visit_step fn s s'.
Proof.
  intros W PF R.
  destruct (chain_progress W PF) as [(r & p' & E) | (i & p' & E)].
  - destruct r as [v|].
    + exists (mk_visit p' (fn v (v_state s)) false), Caller.
      unfold visit_step_at. rewrite PF, R, E. reflexivity.
    + exists (mk_visit p' (v_state s) true), Caller.
      unfold visit_step_at. rewrite PF, R, E. reflexivity.
  - exists (mk_visit p' (v_state s) (v_returned s)), (Worker i).
    unfold visit_step_at. rewrite PF, E. reflexivity.
Qed.

Lemma ForEach_returns {T St} (fn : T -> St -> St) (p : chain T) (st : St) :
  wf p -> panic_free p = true ->
  visit_always_returns fn (ForEach p st)
                       (fold_left (fun a v => fn v a) (contents p) st).
Proof.
  intros W PF. pose proof (ForEach_visit_ok fn st W) as K. repeat split.
  - intros n s Hn R. apply visit_progress; auto.
    + exact (proj1 (visit_steps_ok Hn K)).
    + apply panic_free_not_crashed. exact (visit_steps_panic_free Hn K PF).
  - eexists. intros n s Hn. exact (visit_steps_bound Hn).
  - intros n s Hn R.
    destruct (visit_steps_ok Hn K) as (Ws & pre & Hr & Hl & Hd).
    rewrite Hr. f_equal.
    rewrite <- Hl, (drained_contents Ws (Hd R)), app_nil_r. reflexivity.
Qed.

(** X15. [ForEach] on a stream, under every schedule, returns after calling
    [fn] once on each element the stream has to deliver, in order: the
    elements [ToSlice] would have returned. The same loop serves streams
    and buffered streams. *)
Theorem X15_ForEach_visits_in_order {T St} (fn : T -> St -> St)
    (p : chain T) (st : St)
    (W : wf p) (PF : panic_free p = true) :
  visit_always_returns fn (ForEach p st)
                       (fold_left (fun a v => fn v a) (contents p) st)
  /\ always_returns (ToSlice p) (gather (contents p)).
Proof.
  split; [apply ForEach_returns | apply ToSlice_returns]; assumption.
Qed.

Lemma X15_witness :
  (wf (stream (Streams.Streamify (mk_slice [1; 2; 3])))
   /\ panic_free (stream (Streams.Streamify (mk_slice [1; 2; 3]))) = true)
  /\ visit_always_returns (fun (v : Z) (acc : list Z) => acc ++ [v])
       (ForEach (stream (Streams.Streamify (mk_slice [1; 2; 3]))) [])
       [1; 2; 3].
Proof.
  split; [split; reflexivity|].
  apply (@X15_ForEach_visits_in_order Z (list Z)
           (fun (v : Z) (acc : list Z) => acc ++ [v])
           (stream (Streams.Streamify (mk_slice [1; 2; 3]))) []
           eq_refl eq_refl).
Defined.

(** ** A stream is used once *)

(** X16. Once [ToSlice] has returned, the stream is spent: a second
    [ToSlice] on it returns the nil slice, and a [ForEach] returns without
    calling its function. *)
Theorem X16_stream_is_single_pass {T St} (fn : T -> St -> St) (st : St)
    (p : chain T) (s : call T)
    (W : wf p) (PF : panic_free p = true)
    (Hs : reachable (ToSlice p) s) (Hr : returned s = true) :
  result s = gather (contents p)
  /\ always_returns (ToSlice (upstream s)) nil_slice
  /\ visit_always_returns fn (ForEach (upstream s) st) st.
Proof.
  destruct Hs as [n Hn].
  pose proof (steps_call_ok Hn (ToSlice_call_ok W)) as K.
  pose proof (steps_panic_free Hn (ToSlice_call_ok W) PF) as PF'.
  split; [exact (call_ok_result K Hr)|].
  destruct K as (W' & pre & _ & _ & Hd).
  pose proof (drained_contents W' (Hd Hr)) as E.
  split.
  - change (@nil_slice T) with (gather (@nil T)).
    apply ToSlice_returns_list; assumption.
  - pose proof (ForEach_returns fn st W' PF') as H.
    rewrite E in H. exact H.
Qed.

Lemma X16_witness :
  (wf (stream (Streams.Streamify (mk_slice [1; 2; 3])))
   /\ panic_free (stream (Streams.Streamify (mk_slice [1; 2; 3]))) = true
   /\ returned (run [Caller; Caller; Caller; Worker 0; Worker 0; Caller]
                    (ToSlice (stream (Streams.Streamify (mk_slice [1; 2; 3])))))
      = true)
  /\ result (run [Caller; Caller; Caller; Worker 0; Worker 0; Caller]
                 (ToSlice (stream (Streams.Streamify (mk_slice [1; 2; 3])))))
     = mk_slice [1; 2; 3]
  /\ always_returns
       (ToSlice (upstream
          (run [Caller; Caller; Caller; Worker 0; Worker 0; Caller]
               (ToSlice (stream (Streams.Streamify (mk_slice [1; 2; 3])))))))
       nil_slice
  /\ visit_always_returns (fun (v : Z) (acc : list Z) => acc ++ [v])
       (ForEach (upstream
          (run [Caller; Caller; Caller; Worker 0; Worker 0; Caller]
               (ToSlice (stream (Streams.Streamify (mk_slice [1; 2; 3]))))))
          [])
       [].
Proof.
  split; [repeat split|].
  destruct (@X16_stream_is_single_pass Z (list Z)
              (fun (v : Z) (acc : list Z) => acc ++ [v]) []
              (stream (Streams.Streamify (mk_slice [1; 2; 3])))
              (run [Caller; Caller; Caller; Worker 0; Worker 0; Caller]
                   (ToSlice (stream (Streams.Streamify (mk_slice [1; 2; 3])))))
              eq_refl eq_refl (run_reachable _ _) eq_refl)
    as (H1 & H2 & H3).
  split; [exact H1|]. split; [exact H2 | exact H3].
Defined.

(** ** Values in flight *)

Lemma recv_caps {T} (p p' : chain T) (r : rx T) :
  recv p = Some (r, p') -> caps p' = caps p.
Proof.
  intros H. destruct r as [v|].
  - recv_got_cases H; reflexivity.
  - destruct (recv_eof_inv _ H) as [-> _]. reflexivity.
Qed.

Lemma work_caps {T} (p : chain T) :
  forall i p', work i p = Some p' -> caps p' = caps p.
Proof.
  induction p as [T w ch | T A up IH body w ch]; intros i p' H.
  - destruct i; simpl in H; [|discriminate].
    destruct (origin_step w ch) as [[w' ch']|] eqn:E; [|discriminate].
    injection H as <-. simpl. f_equal.
    destruct w as [[v k| |]|b| |]; simpl in E; try discriminate.
    + apply chan_send_inv in E.
      destruct E as [(_ & _ & ->) | (_ & _ & _ & ->)]; reflexivity.
    + injection E as _ <-. reflexivity.
    + injection E as _ <-. reflexivity.
    + unfold deferred_close in E.
      destruct (closed ch); injection E as _ <-; reflexivity.
  - destruct i as [|j]; simpl in H.
    + destruct w as [[|v]|b| |]; simpl in H; try discriminate.
      * destruct (recv up) as [[[x|] up']|] eqn:R; [| |discriminate].
        -- apply recv_caps in R.
           destruct (body x); injection H as <-; simpl; congruence.
        -- apply recv_caps in R. injection H as <-. simpl. congruence.
      * destruct (chan_send v AtRange ch) as [[w' ch']|] eqn:E; [|discriminate].
        injection H as <-. apply chan_send_inv in E.
        destruct E as [(_ & _ & ->) | (_ & _ & _ & ->)]; reflexivity.
      * unfold deferred_close in H.
        destruct (closed ch); injection H as <-; reflexivity.
    + destruct (work j up) as [up'|] eqn:E; [|discriminate].
      injection H as <-. simpl. rewrite (IH _ _ E). reflexivity.
Qed.

Lemma chain_steps_caps {T} (p p' : chain T) :
  chain_steps p p' -> caps p' = caps p.
Proof.
  induction 1 as [|p p1 p2 [_ [[i E] | [r R]]] _ IH]; [reflexivity| |].
  - rewrite IH. exact (work_caps _ _ E).
  - rewrite IH. exact (recv_caps _ R).
Qed.

Lemma wf_in_flight {T} (p : chain T) :
  wf p ->
  Z.of_nat (buffered p) <= sum_caps (caps p)
  /\ Z.of_nat (in_flight p) <= sum_caps (caps p) + Z.of_nat (depth p) - 1.
Proof.
  unfold wf. induction p as [T w ch | T A up IH body w ch]; simpl; intros W.
  - chan_ok_hyps. lia.
  - apply andb_true_iff in W. destruct W as [W P].
    apply andb_true_iff in W. destruct W as [W Wup].
    apply chan_ok_inv in W. destruct W as (K0 & K1 & K2).
    destruct (IH Wup) as [B F].
    assert (length (loop_pending w) <= 1)%nat.
    { destruct w as [[|v]|b| |]; simpl; lia. }
    unfold sum_caps in *. simpl. lia.
Qed.

(** X17. In a chain that obeys the protocol, whatever steps are taken and
    whoever receives: the capacities stay as they were made, the channels
    together never hold more values than their capacities add up to, and
    with the one value each stage may have in hand no more than that plus
    the number of stages are in flight, however many values the source
    still has. With unbuffered channels nothing is ever held in a channel. *)
Theorem X17_in_flight_bound {T} (p0 : chain T) (W : wf p0) :
  forall p,
    chain_steps p0 p ->
    caps p = caps p0
    /\ Z.of_nat (buffered p) <= sum_caps (caps p0)
    /\ Z.of_nat (in_flight p) <= sum_caps (caps p0) + Z.of_nat (depth p0) - 1
    /\ (sum_caps (caps p0) = 0 -> buffered p = 0%nat).
Proof.
  intros p Hp.
  destruct (chain_steps_wf Hp W) as (W' & _ & D).
  pose proof (chain_steps_caps Hp) as C.
  destruct (wf_in_flight W') as [B F]. rewrite C, D in *.
  repeat split; auto. intros Z0. lia.
Qed.

Lemma X17_witness :
  wf (stream (Streams.Pipe (fun x : Z => dyn TInt x)
                (Streams.Filter Z.even
                   (Streams.Streamify (mk_slice [2; 4; 6; 8])))))
  /\ forall p,
       chain_steps
         (stream (Streams.Pipe (fun x : Z => dyn TInt x)
                    (Streams.Filter Z.even
                       (Streams.Streamify (mk_slice [2; 4; 6; 8]))))) p ->
       Z.of_nat (in_flight p) <= 2 /\ buffered p = 0%nat.
Proof.
  split; [reflexivity|]. intros p Hp.
  destruct (@X17_in_flight_bound any
              (stream (Streams.Pipe (fun x : Z => dyn TInt x)
                         (Streams.Filter Z.even
                            (Streams.Streamify (mk_slice [2; 4; 6; 8])))))
              eq_refl p Hp) as (_ & _ & F & B).
  split; [exact F | exact (B eq_refl)].
Defined.

(** ** No deadlock *)

(** X18. Draining a chain that obeys the protocol never hangs: the runs
    are bounded, and a run that can go no further has returned the values
    the chain had to deliver, or the program has ended by a panic; which
    does not happen when no generator panics. *)
Theorem X18_drain_returns_or_crashes {T} (p : chain T) (W : wf p) :
  (exists bound, forall n s, steps n (ToSlice p) s -> (n <= bound)%nat)
  /\ (forall s,
        reachable (ToSlice p) s -> (forall s', ~ step s s') ->
        (returned s = true /\ result s = gather (contents p))
        \/ crashed (upstream s) = true)
  /\ (panic_free p = true ->
      forall s, reachable (ToSlice p) s -> crashed (upstream s) = false).
Proof.
  split; [|split].
  - exists (steps_left (ToSlice p)). intros n s Hn.
    pose proof (steps_bound Hn). lia.
  - intros s [n Hn] Stuck.
    pose proof (steps_call_ok Hn (ToSlice_call_ok W)) as K.
    destruct (crashed (upstream s)) eqn:Cr; [right; reflexivity|]. left.
    destruct (returned s) eqn:R.
    + split; [reflexivity | exact (call_ok_result K R)].
    + destruct (call_progress _ (proj1 K) Cr R) as [s' Hs'].
      elim (Stuck s' Hs').
  - intros PF s [n Hn]. apply panic_free_not_crashed.
    exact (steps_panic_free Hn (ToSlice_call_ok W) PF).
Qed.

Lemma X18_witness :
  wf (stream (Streams.Filter Z.even (Streams.CreateStream (GSend 2 GPanic))))
  /\ exists bound,
       forall n s,
         steps n (ToSlice (stream (Streams.Filter Z.even
                             (Streams.CreateStream (GSend 2 GPanic))))) s ->
         (n <= bound)%nat.
Proof.
  split; [reflexivity|].
  apply (@X18_drain_returns_or_crashes Z
           (stream (Streams.Filter Z.even (Streams.CreateStream (GSend 2 GPanic))))
           eq_refl).
Defined.

(** ** Conversions, one way *)

(** X19. Each conversion keeps the elements: if draining a stream returns
    [r], draining [ToBufferedStream(n)] of it returns [r]; if draining a
    buffered stream returns [r], draining [ToStream()] of it returns [r]. *)
Theorem X19_conversions_keep_elements {T} (s : streamable T)
    (b : bufferedStream T) (n : Z)
    (Ws : wf (stream s)) (Ps : panic_free (stream s) = true)
    (Wb : wf (bstream b)) (Pb : panic_free (bstream b) = true)
    (Hn : 0 <= n) :
  (exists b',
     Streams.ToBufferedStream s n = Some b'
     /\ forall r,
          always_returns (ToSlice (stream s)) r ->
          always_returns (ToSlice (bstream b')) r)
  /\ (forall r,
        always_returns (ToSlice (bstream b)) r ->
        always_returns (ToSlice (stream (BufferedStreams.ToStream b))) r).
Proof.
  split.
  - unfold Streams.ToBufferedStream. rewrite (make_chan_some _ Hn).
    eexists. split; [reflexivity|]. simpl. intros r Hr.
    rewrite (returns_contents Ws Ps Hr).
    rewrite <- (forward_relay (contents (stream s))) at 1.
    apply stage_returns; assumption.
  - intros r Hr. rewrite (returns_contents Wb Pb Hr).
    rewrite <- (forward_relay (contents (bstream b))) at 1.
    apply stage_returns; auto. lia.
Qed.

Lemma X19_witness :
  (wf (stream (Streams.Streamify (mk_slice [1; 2; 3])))
   /\ panic_free (stream (Streams.Streamify (mk_slice [1; 2; 3]))) = true
   /\ 0 <= 2)
  /\ exists b',
       Streams.ToBufferedStream (Streams.Streamify (mk_slice [1; 2; 3])) 2
       = Some b'
       /\ forall r,
            always_returns
              (ToSlice (stream (Streams.Streamify (mk_slice [1; 2; 3])))) r ->
            always_returns (ToSlice (bstream b')) r.
Proof.
  split; [repeat split; lia|].
  destruct (@X19_conversions_keep_elements Z
              (Streams.Streamify (mk_slice [1; 2; 3]))
              (mk_bufferedStream
                 (spawn_origin (feed [1; 2]) (mk_chan [] 2 false)) 2)
              2 eq_refl eq_refl eq_refl eq_refl ltac:(lia))
    as (H & _).
  exact H.
Defined.

(** X20. [ForEach] on the stream of an iterable, unbuffered or of capacity
    [n], leaves under every schedule the state that [ForEach] on the
    iterable itself leaves. *)
Theorem X20_ForEach_stream_of_iterable {T St} (fn : T -> St -> St)
    (c : iterable T) (st : St) (n : Z) (Hn : 0 <= n) :
  visit_always_returns fn (ForEach (stream (Slices.ToStream c)) st)
                       (Iterable.ForEach fn c st)
  /\ exists b,
       Slices.ToBufferedStream c n = Some b
       /\ visit_always_returns fn (ForEach (bstream b) st)
                               (Iterable.ForEach fn c st).
Proof.
  unfold Iterable.ForEach. split.
  - pose proof (@ForEach_returns _ _ fn (stream (Slices.ToStream c)) st) as H.
    simpl in H. rewrite gen_sends_feed in H. apply H.
    + apply (@wf_spawn_origin T (feed (elems (items c))) 0). lia.
    + rewrite gen_panics_feed. reflexivity.
  - unfold Slices.ToBufferedStream. rewrite (make_chan_some _ Hn).
    eexists. split; [reflexivity|]. simpl.
    pose proof (@ForEach_returns _ _ fn
                  (spawn_origin (feed (elems (items c))) (mk_chan [] n false))
                  st) as H.
    simpl in H. rewrite gen_sends_feed in H. apply H.
    + apply (@wf_spawn_origin T (feed (elems (items c))) n Hn).
    + rewrite gen_panics_feed. reflexivity.
Qed.

Lemma X20_witness :
  0 <= 1
  /\ visit_always_returns (fun (v : Z) (acc : Z) => acc + v)
       (ForEach (stream (Slices.ToStream (mk_iterable (mk_slice [1; 2; 3])))) 0)
       6.
Proof.
  split; [lia|].
  apply (@X20_ForEach_stream_of_iterable Z Z (fun (v : Z) (acc : Z) => acc + v)
           (mk_iterable (mk_slice [1; 2; 3])) 0 1).
  lia.
Defined.
